(** * aim web UI: state helpers and component handlers

    A shallow embedding of the TypeScript sources

    - [utils/app/onTableResizeModeChange.ts]
    - [components/GroupingPopover/GroupingPopover.tsx]
    - [TextExplorerAppBar.tsx]
    - [AskForm.tsx]
    - [utils/app/exceptionHandler.ts]

    The first part of the file holds the definitions, one module per source
    file, preceded by the fragment of JavaScript they rely on (values,
    strings, [Array.prototype.sort]) and by the client-side world the helpers
    act on (models, local storage, analytics).  The second part holds the
    properties. *)

From Stdlib Require Import ZArith String Ascii List DecimalString.
From Stdlib Require Import Sorted Permutation.
From stdpp Require Import gmap strings list fin_maps.
From stdpp Require sorting.

Local Open Scope string_scope.
Local Open Scope Z_scope.

(* ===================================================================== *)
(** * Part I: definitions *)
(* ===================================================================== *)

(** ** The JavaScript fragment *)

Module JS.

(** The safe integers, from [Number.MIN_SAFE_INTEGER] to
    [Number.MAX_SAFE_INTEGER]: the integers that are numbers and that
    [Number::toString] prints digit by digit. *)
Definition safe_integer (n : Z) : bool :=
  (- (2 ^ 53 - 1) <=? n) && (n <=? 2 ^ 53 - 1).

Record SafeInteger : Type := mkSafeInteger {
  safe_value : Z;
  safe_range : safe_integer safe_value = true
}.

(** JavaScript values, as far as the sources handle them: the primitives and
    plain objects (records of data properties that inherit from
    [Object.prototype]; no property holds a function).  Numbers are the safe
    integers (line and column numbers, timestamps: no fraction, no NaN);
    strings are sequences of code units, of which the model takes those below
    256 (Rocq's [ascii]). *)
#[warnings="-register-all"]
Inductive jsval : Type :=
| VUndefined
| VNull
| VBool (b : bool)
| VNumber (n : SafeInteger)
| VStr (s : string)
| VObj (o : gmap string jsval).

(** A number literal; it is typed for safe integers only. *)
Abbreviation VNum n := (VNumber (mkSafeInteger n eq_refl)).

(** [v === undefined || v === null] *)
Definition nullish (v : jsval) : bool :=
  match v with
  | VUndefined | VNull => true
  | _ => false
  end.

(** ToBoolean: what [if (v)], [v ? a : b] and [v || w] test. *)
Definition truthy (v : jsval) : bool :=
  match v with
  | VUndefined | VNull => false
  | VBool b => b
  | VNumber n => negb (safe_value n =? 0)
  | VStr s => negb (s =? "")%string
  | VObj _ => true
  end.

(** Number::toString on a safe integer: its decimal digits. *)
Definition number_to_string (n : SafeInteger) : string :=
  NilZero.string_of_int (Z.to_int (safe_value n)).

(** ToString, which a template literal applies to an interpolated value;
    [None] is a TypeError.  An object is converted by the method it finds
    under [toString]: the inherited one answers [[object Object]]; an own
    property of that name holds no function, [valueOf] then gives no
    primitive either, and the conversion throws. *)
Definition ToString (v : jsval) : option string :=
  match v with
  | VUndefined => Some "undefined"
  | VNull => Some "null"
  | VBool true => Some "true"
  | VBool false => Some "false"
  | VNumber n => Some (number_to_string n)
  | VStr s => Some s
  | VObj o =>
      match o !! "toString" with
      | Some _ => None
      | None => Some "[object Object]"
      end
  end.

(** The name of the property that holds the code unit at index [i]. *)
Definition index_to_string (i : nat) : string :=
  NilZero.string_of_uint (Nat.to_uint i).

(** Reading the data property [k] of a value that is not nullish.  The
    property names the sources read from dynamically typed values ([config],
    [table], [name], [line], [offset], [message], [ok], [code]) exist on
    no primitive wrapper, so a primitive answers [undefined]. *)
Definition prop (v : jsval) (k : string) : jsval :=
  match v with
  | VObj o => default VUndefined (o !! k)
  | _ => VUndefined
  end.

(** [v.k]: a TypeError ([None]) when [v] is nullish. *)
Definition member (v : jsval) (k : string) : option jsval :=
  if nullish v then None else Some (prop v k).

(** [v?.k] *)
Definition opt_member (v : jsval) (k : string) : jsval :=
  if nullish v then VUndefined else prop v k.

(** [v === 'lit'] for a string literal. *)
Definition strict_eq_str (v : jsval) (lit : string) : bool :=
  match v with
  | VStr s => (s =? lit)%string
  | _ => false
  end.

(** [a || b] *)
Definition or_else (a b : jsval) : jsval :=
  if truthy a then a else b.

(** The own enumerable properties copied by an object spread [{...v}]:
    those of an object, the indexed code units of a string, none for the
    other primitives. *)
Definition spread (v : jsval) : gmap string jsval :=
  match v with
  | VObj o => o
  | VStr s =>
      list_to_map
        (imap (fun i c => (index_to_string i, VStr (String c "")))
              (list_ascii_of_string s))
  | _ => ∅
  end.

(** *** Strings *)

(** WhiteSpace and LineTerminator code units below 256: TAB, LF, VT, FF, CR,
    SP and NBSP. *)
Definition is_white_space (c : ascii) : bool :=
  let n := N_of_ascii c in
  ((9 <=? n) && (n <=? 13) || (n =? 32) || (n =? 160))%N.

(** [String.prototype.trimStart] *)
Fixpoint trimStart (s : string) : string :=
  match s with
  | "" => ""
  | String c s' => if is_white_space c then trimStart s' else s
  end.

(** [String.prototype.trimEnd] *)
Fixpoint trimEnd (s : string) : string :=
  match s with
  | "" => ""
  | String c s' =>
      match trimEnd s' with
      | "" => if is_white_space c then "" else String c ""
      | t => String c t
      end
  end.

(** [String.prototype.trim] *)
Definition trim (s : string) : string := trimEnd (trimStart s).

(** The least index at or after [i] where [pat] occurs in [s], [s] being the
    part of the subject that starts at index [i]. *)
Fixpoint search_from (pat s : string) (i : nat) : option nat :=
  if String.prefix pat s then Some i
  else match s with
       | "" => None
       | String _ s' => search_from pat s' (S i)
       end.

(** [s.indexOf(pat)]: the index of the first occurrence, or -1. *)
Definition indexOf (s pat : string) : Z :=
  match search_from pat s 0 with
  | Some i => Z.of_nat i
  | None => -1
  end.

(** [s.includes(pat)], that is [s.indexOf(pat) !== -1]. *)
Definition includes (s pat : string) : bool :=
  negb (indexOf s pat =? -1).

(** What the string operations are meant to compute: [pat] occurs in [s] at
    index [i]; it is a substring of [s]; [i] is its first occurrence. *)
Definition occurs_at (pat s : string) (i : nat) : Prop :=
  exists pre post, s = pre +:+ pat +:+ post /\ String.length pre = i.

Definition substring_of (pat s : string) : Prop :=
  exists i, occurs_at pat s i.

Definition first_occurrence (pat s : string) (i : nat) : Prop :=
  occurs_at pat s i /\ forall j, occurs_at pat s j -> (i <= j)%nat.

(** Every code unit of [s] is white space. *)
Fixpoint blank (s : string) : bool :=
  match s with
  | "" => true
  | String c s' => is_white_space c && blank s'
  end.

(** *** Arrays *)

Section Sort.
Context {A : Type}.

(** The comparator, as JavaScript has it: negative when the first argument
    goes first, positive when the second does. *)
Variable compareFn : A -> A -> Z.

(** Puts [x] in front of the first element it does not go after. *)
Fixpoint sort_insert (x : A) (l : list A) : list A :=
  match l with
  | [] => [x]
  | y :: l' =>
      if compareFn x y <=? 0 then x :: l else y :: sort_insert x l'
  end.

(** [Array.prototype.sort], which the language requires to be stable: here
    the stable insertion sort.  [sort_unique] in the second part shows that
    for a comparator that subtracts keys every stable sort returns this
    list. *)
Definition sort (l : list A) : list A := foldr sort_insert [] l.

End Sort.

Section Keys.
Context {A : Type}.
Variable key : A -> Z.

(** The comparator that subtracts keys, [(a, b) => key(a) - key(b)]. *)
Definition by_key (a b : A) : Z := key a - key b.

(** The order it sorts into, and the test for one key. *)
Definition key_le (a b : A) : Prop := key a <= key b.
Definition has_key (k : Z) (a : A) : bool := key a =? k.

End Keys.

End JS.

(** ** The client-side world *)

Module Client.
Import JS.

(** A reference to a model object (an [IModel<T>]). *)
Definition ModelRef : Type := nat.

(** The notification record handed to [onNotificationAdd]. *)
Record INotification : Type := mkNotification {
  notification_id : Z;
  severity : string;
  messages : list jsval
}.

(** Calls to the collaborators whose effect is observed from outside the
    page: the analytics sink and the two notification helpers. *)
Inductive Call : Type :=
| TrackEvent (label : string)
| OnNotificationAdd (notification : INotification) (model : ModelRef)
| ResetModelOnError (detail : jsval) (model : ModelRef).

Record World : Type := mkWorld {
  models : gmap nat jsval;            (* the state each model holds *)
  localStorage : gmap string string;  (* window.localStorage *)
  clock : Z;                          (* what Date.now() reads *)
  calls : list Call                   (* the calls made so far, oldest first *)
}.

(** A statement either completes or throws; both leave a world behind. *)
Inductive Outcome (A : Type) : Type :=
| Returned (a : A) (w : World)
| Thrown (w : World).
Arguments Returned {A} a w.
Arguments Thrown {A} w.

Definition M (A : Type) : Type := World -> Outcome A.

Definition ret {A : Type} (a : A) : M A := fun w => Returned a w.

Definition bind {A B : Type} (c : M A) (k : A -> M B) : M B :=
  fun w =>
    match c w with
    | Returned a w' => k a w'
    | Thrown w' => Thrown w'
    end.

Definition throw {A : Type} : M A := fun w => Thrown w.

(** An operation that throws a TypeError where it is undefined. *)
Definition must {A : Type} (o : option A) : M A :=
  match o with
  | Some a => ret a
  | None => throw
  end.

Notation "x <- c ;; k" := (bind c (fun x => k))
  (at level 100, c at next level, right associativity).
Notation "c ;; k" := (bind c (fun _ => k))
  (at level 100, right associativity).

Definition world_of {A : Type} (o : Outcome A) : World :=
  match o with
  | Returned _ w => w
  | Thrown w => w
  end.

Definition returned {A : Type} (o : Outcome A) : bool :=
  match o with
  | Returned _ _ => true
  | Thrown _ => false
  end.

(** The state a model holds, [undefined] when it holds none. *)
Definition state_of (w : World) (model : ModelRef) : jsval :=
  default VUndefined (models w !! model).

Definition with_state (model : ModelRef) (st : jsval) (w : World) : World :=
  {| models := <[model := st]> (models w);
     localStorage := localStorage w;
     clock := clock w;
     calls := calls w |}.

Definition with_call (c : Call) (w : World) : World :=
  {| models := models w;
     localStorage := localStorage w;
     clock := clock w;
     calls := calls w ++ [c] |}.

(** Modelled from the spec: [IModel.getState] (services/models/model is not
    among the sources): the model is a state container with simple
    getter/setter semantics, and the getter returns the state it holds. *)
Definition getState (model : ModelRef) : M jsval :=
  fun w => Returned (state_of w model) w.

(** Modelled from the spec: [IModel.setState] (services/models/model is not
    among the sources): the setter takes a partial state and overwrites the
    fields it names, keeping the others. *)
Definition setState (model : ModelRef) (stateUpdate : gmap string jsval)
  : M unit :=
  fun w =>
    Returned tt
      (with_state model (VObj (stateUpdate ∪ spread (state_of w model))) w).

(** Modelled from the spec: [setItem] of utils/storage (not among the
    sources): browser local storage, a value persisted under a key. *)
Definition setItem (key value : string) : M unit :=
  fun w =>
    Returned tt
      {| models := models w;
         localStorage := <[key := value]> (localStorage w);
         clock := clock w;
         calls := calls w |}.

(** Modelled from the spec: [analytics.trackEvent] (services/analytics is not
    among the sources): a fire-and-forget event with a free-text label. *)
Definition trackEvent (label : string) : M unit :=
  fun w => Returned tt (with_call (TrackEvent label) w).

(** [Date.now()] *)
Definition Date_now : M Z := fun w => Returned (clock w) w.

(** The [config] of the state of a model and its [table], read the way the
    helpers read them ([getState()?.config], [config?.table]). *)
Definition config_of (w : World) (model : ModelRef) : jsval :=
  opt_member (state_of w model) "config".

Definition table_of (w : World) (model : ModelRef) : jsval :=
  opt_member (config_of w model) "table".



End Client.

(** ** utils/app/onTableResizeModeChange.ts *)

Module TableResize.
Import JS Client.

Record IOnTableResizeModeChangeParams : Type := mkParams {
  model : ModelRef;
  mode : jsval;     (* a ResizeModeEnum member *)
  page : string
}.

(** The double quote, U+0022. *)
Definition dquote : string := String (ascii_of_nat 34) "".

(** The label of the analytics event of a mode change: the page, and the
    text of the mode between double quotes. *)
Definition label_text (page mode_text : string) : string :=
  "[" +:+ page +:+ "Explorer][Table] Set table view mode to "
  +:+ dquote +:+ mode_text +:+ dquote.

(** The label for the parameters of a call, when the mode converts to a
    string. *)
Definition label_of (params : IOnTableResizeModeChangeParams)
  : option string :=
  label_text (page params) <$> ToString (mode params).

(** The local-storage key of the table configuration of a page. *)
Definition storage_key (params : IOnTableResizeModeChangeParams) : string :=
  page params +:+ "Table".

Section WithEncoder.

(** [encode] of utils/encoder, which is not among the sources. *)
Variable encode : gmap string jsval -> string.

Definition onTableResizeModeChange (params : IOnTableResizeModeChangeParams)
  : M unit :=
  state <- getState (model params) ;;
  let configData := opt_member state "config" in
  (if truthy (opt_member configData "table") then
     let table :=
       <["resizeMode" := mode params]> (spread (prop configData "table")) in
     let config := <["table" := VObj table]> (spread configData) in
     setState (model params) {["config" := VObj config]} ;;
     setItem (page params +:+ "Table") (encode table)
   else ret tt) ;;
  mode_text <- must (ToString (mode params)) ;;
  trackEvent ("[" +:+ page params +:+ "Explorer][Table] Set table view mode to "
              +:+ dquote +:+ mode_text +:+ dquote).

End WithEncoder.

End TableResize.

(** ** components/GroupingPopover/GroupingPopover.tsx *)

Module GroupingPopover.
Import JS.

Record IGroupingSelectOption : Type := mkOption {
  value : string;
  group : string;
  label : string
}.

(** The grouping configuration, as far as the popover's mode control reads
    it: [reverseMode] maps a group name to a boolean. *)
Record IGroupingConfig : Type := mkGrouping {
  reverseMode : gmap string bool
}.

Record IGroupingPopoverProps : Type := mkProps {
  groupName : string;
  groupingData : option IGroupingConfig;   (* [None]: undefined *)
  groupingSelectOptions : list IGroupingSelectOption
}.

(** An element of the array the Autocomplete hands to [onChange]: an option,
    or a bare string. *)
Inductive SelectItem : Type :=
| ItemString (s : string)
| ItemOption (o : IGroupingSelectOption).

(** The calls the popover makes to the callbacks of its props. *)
Inductive Callback : Type :=
| OnSelect (groupName : string) (list : list string)
| OnGroupingModeChange (groupName : string) (value : bool)
    (options : option (list IGroupingSelectOption)).   (* [None]: null *)

(** [typeof item === 'string' ? item : item.value] *)
Definition item_value (item : SelectItem) : string :=
  match item with
  | ItemString s => s
  | ItemOption o => value o
  end.

Definition handleSelect (props : IGroupingPopoverProps)
    (values : list SelectItem) : list Callback :=
  [OnSelect (groupName props) (map item_value values)].

(** [onChange(e, values)] in the state [inputValue]: the callbacks invoked and
    the input value the component holds afterwards. *)
Definition onChange (props : IGroupingPopoverProps) (inputValue : string)
    (e : jsval) (values : list SelectItem) : list Callback * string :=
  if negb (strict_eq_str (opt_member e "code") "Backspace") then
    (handleSelect props values, "")
  else if (String.length inputValue =? 0)%nat then
    (handleSelect props values, inputValue)
  else
    ([], inputValue).

(** [groupingData?.reverseMode[groupName]], tested for truth. *)
Definition reverse_mode (props : IGroupingPopoverProps) : bool :=
  match groupingData props with
  | None => false
  | Some g => default false (reverseMode g !! groupName props)
  end.

(** [handleGroupingMode(val, id)] *)
Definition handleGroupingMode (props : IGroupingPopoverProps) (val : jsval)
  : list Callback :=
  [OnGroupingModeChange (groupName props)
     (strict_eq_str val "Reverse")
     (if reverse_mode props then Some (groupingSelectOptions props) else None)].

(** The [value] prop of the mode ToggleButton. *)
Definition toggle_value (props : IGroupingPopoverProps) : string :=
  if reverse_mode props then "Reverse" else "Group".

(** The [options] memo: what the Autocomplete lists. *)
Definition options (props : IGroupingPopoverProps) (inputValue : string)
  : list IGroupingSelectOption :=
  if negb (trim inputValue =? "")%string then
    let filtered :=
      List.filter (fun item => negb (indexOf (label item) inputValue =? -1))
                  (groupingSelectOptions props) in
    sort (fun a b =>
            indexOf (label a) inputValue - indexOf (label b) inputValue)
         filtered
  else groupingSelectOptions props.

(** Whether the label of an option contains the input, and the index at
    which it does (first). *)
Definition matching (inputValue : string) (o : IGroupingSelectOption) : bool :=
  includes (label o) inputValue.

Definition position (inputValue : string) (o : IGroupingSelectOption) : Z :=
  indexOf (label o) inputValue.

End GroupingPopover.

(** ** TextExplorerAppBar.tsx *)

Module TextExplorerAppBar.
Import JS.

(** The controls of the bar that carry a handler. *)
Inductive Control : Type :=
| MenuCreateBookmark      (* MenuItem, rendered when the route has an appId *)
| MenuUpdateBookmark      (* MenuItem, rendered when the route has an appId *)
| BookmarkButton          (* Button, rendered when the route has no appId *)
| BookmarkFormClose       (* BookmarkForm onClose *)
| DialogClose             (* Dialog onClose *)
| DialogCancel            (* Cancel button of the dialog *)
| DialogSave.             (* Save button of the dialog *)

Inductive Callback : Type :=
| OnBookmarkUpdate (appId : jsval).

Definition handleBookmarkClick (value : string) (popover : string) : string :=
  value.

Definition handleClosePopover (popover : string) : string := "".

Definition handleBookmarkUpdate (appId : jsval) (popover : string)
  : list Callback * string :=
  ([OnBookmarkUpdate appId], handleClosePopover popover).

(** The handler each control is wired to. *)
Definition handle (appId : jsval) (c : Control) (popover : string)
  : list Callback * string :=
  match c with
  | MenuCreateBookmark | BookmarkButton =>
      ([], handleBookmarkClick "create" popover)
  | MenuUpdateBookmark => ([], handleBookmarkClick "update" popover)
  | BookmarkFormClose | DialogClose | DialogCancel =>
      ([], handleClosePopover popover)
  | DialogSave => handleBookmarkUpdate appId popover
  end.

(** Whether the control is in the rendered tree. *)
Definition rendered (appId : jsval) (c : Control) : bool :=
  match c with
  | MenuCreateBookmark | MenuUpdateBookmark => truthy appId
  | BookmarkButton => negb (truthy appId)
  | _ => true
  end.

(** [open] prop of the BookmarkForm. *)
Definition bookmarkForm_open (popover : string) : bool :=
  (popover =? "create")%string.

(** [open] prop of the update Dialog. *)
Definition dialog_open (popover : string) : bool :=
  (popover =? "update")%string.

(** The initial state, [React.useState<string>('')]. *)
Definition initial : string := "".

End TextExplorerAppBar.

(** ** AskForm.tsx *)

Module AskForm.
Import JS.

(** How the promise returned by [onSendEmail] settles. *)
Inductive Settled : Type :=
| Fulfilled (data : jsval)
| Rejected (reason : jsval).

(** A call of the state setter. *)
Inductive Update : Type :=
| SetEmail (text : string).

(** The state after the updates, applied in order. *)
Definition apply (email : string) (us : list Update) : string :=
  foldl (fun _ u => match u with SetEmail t => t end) email us.

(** The argument [handleSubmit] passes to [onSendEmail]. *)
Definition request (email : string) : jsval :=
  VObj {["email" := VStr email]}.

(** [handleSubmit], from the state [email] it was rendered with: the setter
    calls it makes after the await, and whether its own promise fulfils. *)
Definition handleSubmit (onSendEmail : jsval -> Settled) (email : string)
  : list Update * bool :=
  match onSendEmail (request email) with
  | Rejected _ => ([], false)
  | Fulfilled data =>
      match member data "ok" with
      | None => ([], false)
      | Some ok => if truthy ok then ([SetEmail ""], true) else ([], true)
      end
  end.

(** [onChange] of the text field. *)
Definition onChange (text : string) : list Update := [SetEmail text].

End AskForm.

(** ** utils/app/exceptionHandler.ts *)

Module ExceptionHandler.
Import JS Client.

Section WithHelpers.

(** [RequestStatusEnum.BadRequest] of config/enums, not among the sources. *)
Variable BadRequest : jsval.

(** What [onNotificationAdd] and [resetModelOnError], which are not among the
    sources, make of the state of the model they are given. *)
Variable notified : INotification -> jsval -> jsval.
Variable reset : jsval -> jsval -> jsval.

Definition onNotificationAdd (notification : INotification) (model : ModelRef)
  : M unit :=
  fun w =>
    Returned tt
      (with_call (OnNotificationAdd notification model)
         (with_state model (notified notification (state_of w model)) w)).

Definition resetModelOnError (detail : jsval) (model : ModelRef) : M unit :=
  fun w =>
    Returned tt
      (with_call (ResetModelOnError detail model)
         (with_state model (reset detail (state_of w model)) w)).

(** The message computed by the first statement of the handler. *)
Definition message_of (detail : jsval) : M jsval :=
  name <- must (member detail "name") ;;
  if strict_eq_str name "SyntaxError" then
    line <- must (ToString (prop detail "line")) ;;
    offset <- must (ToString (prop detail "offset")) ;;
    ret (VStr ("Query syntax error at line (" +:+ line +:+ ", " +:+ offset
               +:+ ")"))
  else
    ret (or_else (prop detail "message") (VStr "Something went wrong")).

Definition exceptionHandler (detail : jsval) (model : ModelRef) : M unit :=
  message <- message_of detail ;;
  setState model {["requestStatus" := BadRequest]} ;;
  now <- Date_now ;;
  onNotificationAdd
    {| notification_id := now; severity := "error"; messages := [message] |}
    model ;;
  resetModelOnError detail model.

End WithHelpers.

End ExceptionHandler.

(** ** GroupingPopover.tsx: the selected values *)

Module GroupingValues.
Import JS GroupingPopover.

(** The index of the first element of [l] at or after index [i] that is
    strictly equal to [x], [l] being the part of the array from [i] on. *)
Fixpoint array_search (x : string) (l : list string) (i : nat) : option nat :=
  match l with
  | [] => None
  | y :: l' => if (y =? x)%string then Some i else array_search x l' (S i)
  end.

(** [l.indexOf(x)] on an array of strings. *)
Definition array_indexOf (l : list string) (x : string) : Z :=
  match array_search x l 0 with
  | Some i => Z.of_nat i
  | None => -1
  end.

(** The index of the value of an option among the applied fields. *)
Definition applied_index (applied : list string) (o : IGroupingSelectOption)
  : Z :=
  array_indexOf applied (value o).

(** Whether the value of an option is among the applied fields. *)
Definition is_applied (applied : list string) (o : IGroupingSelectOption)
  : bool :=
  negb (array_indexOf applied (value o) =? -1).

(** The [values] memo: the options the Autocomplete shows as selected.
    [fields] holds the arrays of applied fields the grouping data has under
    each group name, [groupingData[groupName]].  [None] is the TypeError of
    calling [indexOf] on a missing array, which the loop reaches at its first
    option. *)
Definition values (props : IGroupingPopoverProps)
    (fields : gmap string (list string))
  : option (list IGroupingSelectOption) :=
  match groupingData props with
  | None => Some (groupingSelectOptions props)
  | Some _ =>
      match fields !! groupName props with
      | None =>
          match groupingSelectOptions props with
          | [] => Some []
          | _ :: _ => None
          end
      | Some applied =>
          let data :=
            List.filter
              (fun option => negb (array_indexOf applied (value option) =? -1))
              (groupingSelectOptions props) in
          Some (sort (fun a b => array_indexOf applied (value a)
                                 - array_indexOf applied (value b))
                     data)
      end
  end.

(** Whether a field is the value of one of the options. *)
Definition is_option_value (options : list IGroupingSelectOption)
    (field : string) : bool :=
  existsb (fun o => (value o =? field)%string) options.

End GroupingValues.

(** ** TextExplorerAppBar.tsx: runs of the controls *)

Module BookmarkRuns.
Import JS TextExplorerAppBar.

(** Whether a control can be operated in a state: it is rendered, and the
    controls that belong to the form or to the dialog are on screen while
    that is open. *)
Definition operable (appId : jsval) (popover : string) (c : Control) : bool :=
  rendered appId c &&
  match c with
  | BookmarkFormClose => bookmarkForm_open popover
  | DialogClose | DialogCancel | DialogSave => dialog_open popover
  | _ => true
  end.

(** The callbacks made and the state reached by operating the controls of
    [cs] one after the other. *)
Fixpoint run (appId : jsval) (cs : list Control) (popover : string)
  : list Callback * string :=
  match cs with
  | [] => ([], popover)
  | c :: cs' =>
      let (called, popover') := handle appId c popover in
      let (called', popover'') := run appId cs' popover' in
      ((called ++ called')%list, popover'')
  end.

(** Every control of the run is operable in the state it is operated in. *)
Fixpoint operable_run (appId : jsval) (cs : list Control) (popover : string)
  : bool :=
  match cs with
  | [] => true
  | c :: cs' =>
      operable appId popover c
      && operable_run appId cs' (snd (handle appId c popover))
  end.

(** How often a run presses Save, and how often it chooses Update
    Bookmark. *)
Definition saves (cs : list Control) : nat :=
  length (List.filter
            (fun c => match c with DialogSave => true | _ => false end)
            cs).

Definition update_choices (cs : list Control) : nat :=
  length (List.filter
            (fun c => match c with MenuUpdateBookmark => true | _ => false end)
            cs).

End BookmarkRuns.

(** ** RunsContainer.tsx *)

Module RunsContainer.
Import JS.

(** The value of [v ?? []]. *)
Inductive OrEmptyArray : Type :=
| Given (v : jsval)
| EmptyArray.

Definition or_empty_array (v : jsval) : OrEmptyArray :=
  if nullish v then EmptyArray else Given v.

(** The props of [Runs] that are read off the model state (the others are
    methods of the model and the table ref). *)
Record IRunsProps : Type := mkRunsProps {
  tableData : jsval;
  tableColumns : jsval;
  isRunsDataLoading : jsval;
  isLatest : jsval;
  tableRowHeight : jsval;
  columnsOrder : jsval;
  hiddenColumns : OrEmptyArray;
  query : jsval;
  columnsWidths : jsval;
  isInfiniteLoading : jsval;
  notifyData : jsval
}.

(** [runsData?.config?.k.f]: the chain stops with [undefined] at a nullish
    [runsData] or [config]; past these, [.f] is a plain member access. *)
Definition config_member (runsData : jsval) (k f : string) : option jsval :=
  let config := opt_member runsData "config" in
  if nullish config then Some VUndefined else member (prop config k) f.

(** [runsData?.config?.k?.f] *)
Definition config_opt_member (runsData : jsval) (k f : string) : jsval :=
  opt_member (opt_member (opt_member runsData "config") k) f.

(** The props the render computes, in the order of the JSX; [None] when an
    access throws. *)
Definition render_props (runsData : jsval) : option IRunsProps :=
  latest ← config_member runsData "pagination" "isLatest";
  order ← config_member runsData "table" "columnsOrder";
  hidden ← config_member runsData "table" "hiddenColumns";
  widths ← config_member runsData "table" "columnsWidths";
  Some {| tableData := opt_member runsData "tableData";
          tableColumns := opt_member runsData "tableColumns";
          isRunsDataLoading := opt_member runsData "requestIsPending";
          isLatest := latest;
          tableRowHeight := config_opt_member runsData "table" "rowHeight";
          columnsOrder := order;
          hiddenColumns := or_empty_array hidden;
          query := config_opt_member runsData "select" "query";
          columnsWidths := widths;
          isInfiniteLoading := opt_member runsData "infiniteIsPending";
          notifyData := opt_member runsData "notifyData" |}.

End RunsContainer.

(* ===================================================================== *)
(** * Part II: properties *)
(* ===================================================================== *)

(** ** Strings *)

Module StringFacts.
Import JS.

Lemma append_nil (s : string) : "" +:+ s = s.
Proof. reflexivity. Qed.

Lemma append_cons (c : ascii) (s t : string) :
  String c s +:+ t = String c (s +:+ t).
Proof. reflexivity. Qed.

Lemma prefix_spec (pat s : string) :
  String.prefix pat s = true <-> exists post, s = pat +:+ post.
Proof.
  revert s. induction pat as [|c pat IH]; intros s; simpl.
  - split; [intros _; by exists s | by destruct s].
  - destruct s as [|d s]; simpl.
    + split; [done | intros [post H]; discriminate].
    + setoid_rewrite append_cons. destruct (ascii_dec c d) as [->|Hne].
      * rewrite IH. split; intros [post H]; exists post; congruence.
      * split; [done | intros [post H]; congruence].
Qed.

Lemma occurs_at_0 (pat s : string) :
  occurs_at pat s 0 <-> String.prefix pat s = true.
Proof.
  rewrite prefix_spec. split.
  - intros (pre & post & -> & Hlen). destruct pre; [|done]. by exists post.
  - intros [post ->]. by exists "", post.
Qed.

Lemma occurs_at_S (pat : string) (c : ascii) (s : string) (i : nat) :
  occurs_at pat (String c s) (S i) <-> occurs_at pat s i.
Proof.
  split.
  - intros (pre & post & Heq & Hlen). destruct pre as [|d pre]; [done|].
    rewrite append_cons in Heq. simpl in Hlen.
    exists pre, post. split; congruence.
  - intros (pre & post & -> & Hlen). exists (String c pre), post.
    rewrite append_cons. simpl. by rewrite Hlen.
Qed.

Lemma occurs_at_empty (pat : string) (i : nat) :
  occurs_at pat "" (S i) -> False.
Proof. intros (pre & post & Heq & Hlen). by destruct pre. Qed.

Lemma search_from_eq (pat s : string) (i : nat) :
  search_from pat s i =
  if String.prefix pat s then Some i
  else match s with
       | "" => None
       | String _ s' => search_from pat s' (S i)
       end.
Proof. by destruct s. Qed.

Lemma search_from_Some (pat s : string) (i j : nat) :
  search_from pat s i = Some j ->
  exists k, j = (i + k)%nat /\ first_occurrence pat s k.
Proof.
  revert i. induction s as [|c s IH]; intros i; rewrite search_from_eq;
    destruct (String.prefix pat _) eqn:Hp; try done.
  - intros [= <-]. exists 0%nat. split; [lia|]. split; [|lia].
    by apply occurs_at_0.
  - intros [= <-]. exists 0%nat. split; [lia|]. split; [|lia].
    by apply occurs_at_0.
  - intros H. apply IH in H as (k & -> & Hocc & Hmin).
    exists (S k). split; [lia|]. split; [by apply occurs_at_S|].
    intros [|j'] Hj.
    + apply occurs_at_0 in Hj. congruence.
    + apply occurs_at_S in Hj. apply Hmin in Hj. lia.
Qed.

Lemma search_from_None (pat s : string) (i : nat) :
  search_from pat s i = None -> forall k, ~ occurs_at pat s k.
Proof.
  revert i. induction s as [|c s IH]; intros i; rewrite search_from_eq;
    destruct (String.prefix pat _) eqn:Hp; try done.
  - intros _ [|k] Hk; [apply occurs_at_0 in Hk; congruence|].
    by apply occurs_at_empty in Hk.
  - intros H [|k] Hk; [apply occurs_at_0 in Hk; congruence|].
    apply occurs_at_S in Hk. by apply (IH _ H k).
Qed.

(** [indexOf] answers -1 exactly when the pattern is no substring, *)
Lemma indexOf_none (s pat : string) :
  indexOf s pat = -1 <-> ~ substring_of pat s.
Proof.
  unfold indexOf. destruct (search_from pat s 0) as [j|] eqn:H.
  - apply search_from_Some in H as (k & -> & Hocc & _).
    split; [lia|]. intros Hn. exfalso. apply Hn. by exists k.
  - split; [|done]. intros _ [k Hk]. by apply (search_from_None _ _ _ H k).
Qed.

(** and otherwise the index of the first occurrence. *)
Lemma indexOf_first (s pat : string) :
  substring_of pat s ->
  0 <= indexOf s pat /\ first_occurrence pat s (Z.to_nat (indexOf s pat)).
Proof.
  intros [k Hk]. unfold indexOf.
  destruct (search_from pat s 0) as [j|] eqn:H.
  - apply search_from_Some in H as (k' & -> & Hfirst).
    split; [lia|]. by rewrite Nat2Z.id.
  - by apply (search_from_None _ _ _ H) in Hk.
Qed.

Lemma indexOf_range (s pat : string) : -1 <= indexOf s pat.
Proof. unfold indexOf. destruct (search_from pat s 0); lia. Qed.

Lemma includes_spec (s pat : string) :
  includes s pat = true <-> substring_of pat s.
Proof.
  unfold includes. rewrite negb_true_iff, Z.eqb_neq, indexOf_none.
  split; [|tauto]. intros Hnn.
  destruct (search_from pat s 0) as [j|] eqn:H.
  - apply search_from_Some in H as (k & _ & Hocc & _). by exists k.
  - exfalso. apply Hnn. intros [k Hk].
    by apply (search_from_None _ _ _ H k).
Qed.

(** Trimming leaves nothing exactly when the string is blank. *)
Lemma trimStart_blank (s : string) : trimStart s = "" <-> blank s = true.
Proof.
  induction s as [|c s IH]; simpl; [done|].
  destruct (is_white_space c); simpl; [done|]. split; discriminate.
Qed.

Lemma trimEnd_empty (s : string) : trimEnd s = "" <-> blank s = true.
Proof.
  induction s as [|c s IH]; simpl; [done|].
  destruct (trimEnd s) as [|d t] eqn:Ht.
  - destruct (is_white_space c); simpl; [tauto|]. split; discriminate.
  - split; [discriminate|]. intros [_ Hb]%andb_true_iff.
    apply IH in Hb. discriminate.
Qed.

Lemma blank_trimStart (s : string) : blank (trimStart s) = blank s.
Proof.
  induction s as [|c s IH]; simpl; [done|].
  destruct (is_white_space c) eqn:Hc; simpl; [done|]. by rewrite Hc.
Qed.

Lemma trim_empty (s : string) : trim s = "" <-> blank s = true.
Proof. unfold trim. by rewrite trimEnd_empty, blank_trimStart. Qed.

(** Strict equality with a string literal holds of that string only. *)
Lemma strict_eq_str_true (v : jsval) (lit : string) :
  strict_eq_str v lit = true <-> v = VStr lit.
Proof.
  destruct v; simpl; try (split; [done | discriminate]).
  rewrite String.eqb_eq. split; congruence.
Qed.

End StringFacts.

(** ** Sorting by a key *)

Module SortFacts.
Import JS.

Section ByKey.
Context {A : Type}.

Variable key : A -> Z.

Lemma sort_insert_perm (x : A) (l : list A) :
  Permutation (sort_insert (by_key key) x l) (x :: l).
Proof.
  induction l as [|y l IH]; simpl; [done|].
  destruct (by_key key x y <=? 0); [done|].
  rewrite IH. apply perm_swap.
Qed.

Lemma sort_perm (l : list A) : Permutation (sort (by_key key) l) l.
Proof.
  induction l as [|x l IH]; simpl; [done|].
  rewrite sort_insert_perm. by constructor.
Qed.

Lemma sort_insert_sorted (x : A) (l : list A) :
  StronglySorted (key_le key) l ->
  StronglySorted (key_le key) (sort_insert (by_key key) x l).
Proof.
  induction 1 as [|y l Hs IH Hy]; simpl.
  - repeat constructor.
  - destruct (by_key key x y <=? 0) eqn:Hc.
    + apply Z.leb_le in Hc. unfold by_key in Hc.
      constructor; [by constructor|].
      constructor; [unfold key_le; lia|].
      eapply Forall_impl; [exact Hy|]. unfold key_le. intros; lia.
    + apply Z.leb_gt in Hc. unfold by_key in Hc.
      constructor; [done|].
      rewrite sort_insert_perm.
      constructor; [unfold key_le; lia | done].
Qed.

Lemma sort_sorted (l : list A) :
  StronglySorted (key_le key) (sort (by_key key) l).
Proof.
  induction l as [|x l IH]; simpl; [constructor|].
  by apply sort_insert_sorted.
Qed.

(** Insertion moves [x] past elements of a smaller key only, so the
    elements of any one key keep their order. *)
Lemma sort_insert_stable (k : Z) (x : A) (l : list A) :
  List.filter (has_key key k) (sort_insert (by_key key) x l)
  = List.filter (has_key key k) (x :: l).
Proof.
  induction l as [|y l IH]; simpl; [done|].
  destruct (by_key key x y <=? 0) eqn:Hc; [done|].
  apply Z.leb_gt in Hc. unfold by_key in Hc.
  simpl in *. rewrite IH. unfold has_key.
  destruct (key x =? k) eqn:Hx, (key y =? k) eqn:Hy; try done.
  apply Z.eqb_eq in Hx, Hy. lia.
Qed.

Lemma sort_stable (k : Z) (l : list A) :
  List.filter (has_key key k) (sort (by_key key) l)
  = List.filter (has_key key k) l.
Proof.
  induction l as [|x l IH]; simpl; [done|].
  rewrite sort_insert_stable. simpl. by rewrite IH.
Qed.

Lemma filter_has_key_cons (k : Z) (x : A) (l : list A) :
  List.filter (has_key key k) (x :: l)
  = if key x =? k then x :: List.filter (has_key key k) l
    else List.filter (has_key key k) l.
Proof. reflexivity. Qed.

Lemma filter_has_key_head (a : A) (l l' : list A) :
  List.filter (has_key key (key a)) l = a :: l' -> In a l.
Proof.
  intros H. apply (filter_In (has_key key (key a))). rewrite H. by left.
Qed.

(** A list sorted by key is determined by its elements of each key, in their
    order: whatever stable algorithm the engine runs, the result of [sort] is
    the list it returns. *)
Lemma sort_unique (l1 l2 : list A) :
  StronglySorted (key_le key) l1 ->
  StronglySorted (key_le key) l2 ->
  (forall k, List.filter (has_key key k) l1 = List.filter (has_key key k) l2) ->
  l1 = l2.
Proof.
  intros Hs1. revert l2.
  induction Hs1 as [|x l1 Hs1 IH Hx]; intros l2 Hs2 Hf.
  - destruct l2 as [|y l2]; [done|].
    specialize (Hf (key y)). rewrite filter_has_key_cons, Z.eqb_refl in Hf.
    discriminate.
  - destruct Hs2 as [|y l2 Hs2 Hy].
    { specialize (Hf (key x)). rewrite filter_has_key_cons, Z.eqb_refl in Hf.
      discriminate. }
    rewrite Forall_forall in Hx, Hy.
    assert (Hxy : key x = key y).
    { apply Z.le_antisymm.
      - pose proof (Hf (key y)) as H.
        rewrite !filter_has_key_cons, Z.eqb_refl in H.
        destruct (Z.eqb_spec (key x) (key y)) as [E|E]; [lia|].
        apply filter_has_key_head in H. by apply Hx, list_elem_of_In.
      - pose proof (Hf (key x)) as H.
        rewrite !filter_has_key_cons, Z.eqb_refl in H.
        destruct (Z.eqb_spec (key y) (key x)) as [E|E]; [lia|].
        symmetry in H. apply filter_has_key_head in H.
        by apply Hy, list_elem_of_In. }
    assert (Hhd : x = y).
    { specialize (Hf (key x)).
      rewrite !filter_has_key_cons, <- Hxy, Z.eqb_refl in Hf. congruence. }
    subst y. f_equal. apply IH; [done|]. intros k.
    specialize (Hf k). rewrite !filter_has_key_cons in Hf.
    destruct (key x =? k); congruence.
Qed.

End ByKey.

End SortFacts.

(** ** GroupingPopover *)

Module GroupingPopoverFacts.
Import JS GroupingPopover StringFacts SortFacts.

Lemma options_blank (props : IGroupingPopoverProps) (inputValue : string) :
  trim inputValue = "" ->
  options props inputValue = groupingSelectOptions props.
Proof. intros H. unfold options. by rewrite H. Qed.

Lemma options_filtering (props : IGroupingPopoverProps) (inputValue : string) :
  trim inputValue <> "" ->
  options props inputValue
  = sort (by_key (position inputValue))
         (List.filter (matching inputValue) (groupingSelectOptions props)).
Proof.
  intros H. unfold options. apply String.eqb_neq in H. by rewrite H.
Qed.

(** A filter that only lets through what an earlier one does makes the
    earlier one redundant. *)
Lemma filter_filter_implied {A : Type} (f g : A -> bool) (l : list A) :
  (forall a, f a = true -> g a = true) ->
  List.filter f (List.filter g l) = List.filter f l.
Proof.
  intros Hfg. induction l as [|a l IH]; simpl; [done|].
  destruct (g a) eqn:Hg; simpl; [by rewrite IH|].
  destruct (f a) eqn:Hf; [|done]. apply Hfg in Hf. congruence.
Qed.

(** Among the matching options the ones at a given position are the same
    before and after the filter. *)
Lemma filter_position_matching (inputValue : string) (p : Z)
    (l : list IGroupingSelectOption) :
  0 <= p ->
  List.filter (has_key (position inputValue) p)
              (List.filter (matching inputValue) l)
  = List.filter (has_key (position inputValue) p) l.
Proof.
  intros Hp. apply filter_filter_implied. intros o.
  unfold has_key, position, matching, includes.
  intros ->%Z.eqb_eq. apply negb_true_iff, Z.eqb_neq. lia.
Qed.

(** C1: for a filter input that is not empty after trimming, the option list
    shown holds exactly the options whose label contains the input as a
    substring (each as often as the full list has it), sorted by the position
    of the first occurrence of the input in the label, the options matching
    at one position in their original order; for an input that trims to the
    empty string it is the full option list. *)
Theorem options_filter_sort_stable (props : IGroupingPopoverProps)
    (inputValue : string) :
  let full := groupingSelectOptions props in
  let shown := options props inputValue in
  (trim inputValue = "" -> shown = full) /\
  (trim inputValue <> "" ->
   (forall o, In o shown <-> In o full /\ substring_of inputValue (label o)) /\
   Permutation shown (List.filter (matching inputValue) full) /\
   (forall o, In o shown ->
      first_occurrence inputValue (label o) (Z.to_nat (position inputValue o)))
   /\
   StronglySorted (key_le (position inputValue)) shown /\
   (forall p, 0 <= p ->
      List.filter (has_key (position inputValue) p) shown
      = List.filter (has_key (position inputValue) p) full)).
Proof.
  cbv zeta. split; [apply options_blank|].
  intros Hne. rewrite (options_filtering _ _ Hne).
  set (full := groupingSelectOptions props).
  assert (Hmem : forall o,
    In o (sort (by_key (position inputValue))
               (List.filter (matching inputValue) full))
    <-> In o full /\ substring_of inputValue (label o)).
  { intros o. rewrite <- includes_spec, <- (filter_In (matching inputValue)).
    split; apply Permutation_in;
      [apply sort_perm | symmetry; apply sort_perm]. }
  split; [exact Hmem|]. split; [apply sort_perm|].
  split; [|split].
  - intros o [_ Hsub]%Hmem. by apply indexOf_first.
  - apply sort_sorted.
  - intros p Hp. by rewrite sort_stable, filter_position_matching.
Qed.

(** The list shown is the only one that holds the matching options sorted by
    position with ties in their original order. *)
Lemma options_determined (props : IGroupingPopoverProps) (inputValue : string)
    (l : list IGroupingSelectOption) :
  trim inputValue <> "" ->
  StronglySorted (key_le (position inputValue)) l ->
  (forall p, List.filter (has_key (position inputValue) p) l
             = List.filter (has_key (position inputValue) p)
                 (List.filter (matching inputValue)
                              (groupingSelectOptions props))) ->
  l = options props inputValue.
Proof.
  intros Hne Hs Hf. rewrite (options_filtering _ _ Hne).
  apply (sort_unique (position inputValue)); [done|apply sort_sorted|].
  intros p. by rewrite Hf, sort_stable.
Qed.

(** The match is against the input as typed: trimming only decides whether
    there is a filter at all. *)
Example options_match_untrimmed :
  map label
    (options (mkProps "color" None
                [mkOption "a" "run" "ab"; mkOption "b" "run" "x ab";
                 mkOption "c" "run" "zz ab"; mkOption "d" "run" "zzab"])
             " ab")
  = ["x ab"; "zz ab"].
Proof. reflexivity. Qed.

Example options_sorted_by_position :
  map label
    (options (mkProps "color" None
                [mkOption "a" "run" "xab"; mkOption "b" "run" "ab";
                 mkOption "c" "run" "zzab"; mkOption "d" "run" "abab";
                 mkOption "e" "run" "q"; mkOption "f" "run" "yab"])
             "ab")
  = ["ab"; "abab"; "xab"; "yab"; "zzab"].
Proof. reflexivity. Qed.

(** The mode control reads [reverseMode[groupName]] of the grouping data. *)
Lemma reverse_mode_true (props : IGroupingPopoverProps) :
  reverse_mode props = true <->
  exists g, groupingData props = Some g
            /\ reverseMode g !! groupName props = Some true.
Proof.
  unfold reverse_mode. destruct (groupingData props) as [g|].
  - destruct (reverseMode g !! groupName props) as [[]|] eqn:E; simpl.
    + split; [intros _; by exists g | done].
    + split; [done | intros (g' & [= <-] & H); congruence].
    + split; [done | intros (g' & [= <-] & H); congruence].
  - split; [done | by intros (g & H & _)].
Qed.

Lemma toggle_value_cases (props : IGroupingPopoverProps) :
  (toggle_value props = "Reverse" <-> reverse_mode props = true) /\
  (toggle_value props = "Group" <-> reverse_mode props = false).
Proof. unfold toggle_value. by destruct (reverse_mode props). Qed.

(** C4: the mode control shows Reverse exactly when [reverseMode[groupName]]
    is true and Group otherwise; selecting a toggle value calls the
    mode-change callback once, for the popover's group, with value true
    exactly when the selected value is Reverse, and with the full option list
    when the current mode is reverse and null otherwise; once the grouping
    data holds the value the callback received, the control shows the value
    that was selected. *)
Theorem grouping_mode_toggle (props : IGroupingPopoverProps) (val : jsval) :
  (toggle_value props = "Reverse" <-> reverse_mode props = true) /\
  (toggle_value props = "Group" <-> reverse_mode props = false) /\
  (reverse_mode props = true <->
   exists g, groupingData props = Some g
             /\ reverseMode g !! groupName props = Some true) /\
  exists value options,
    handleGroupingMode props val
    = [OnGroupingModeChange (groupName props) value options] /\
    (value = true <-> val = VStr "Reverse") /\
    (reverse_mode props = true -> options = Some (groupingSelectOptions props))
    /\
    (reverse_mode props = false -> options = None) /\
    forall g' : IGroupingConfig,
      reverseMode g' !! groupName props = Some value ->
      let props' := mkProps (groupName props) (Some g')
                            (groupingSelectOptions props) in
      (val = VStr "Reverse" -> toggle_value props' = "Reverse") /\
      (val = VStr "Group" -> toggle_value props' = "Group").
Proof.
  pose proof (toggle_value_cases props) as [Hr Hg].
  split; [done|]. split; [done|]. split; [apply reverse_mode_true|].
  eexists _, _. split; [reflexivity|].
  split; [apply strict_eq_str_true|].
  split; [by intros ->|]. split; [by intros ->|].
  intros g' Hg'. cbv zeta.
  unfold toggle_value, reverse_mode; simpl. rewrite Hg'; simpl.
  split; intros ->; reflexivity.
Qed.

Example grouping_mode_toggle_reverse :
  handleGroupingMode
    (mkProps "color" (Some (mkGrouping {["color" := false]}))
             [mkOption "run.hash" "run" "run.hash"])
    (VStr "Reverse")
  = [OnGroupingModeChange "color" true None].
Proof. reflexivity. Qed.

Example grouping_mode_toggle_group :
  handleGroupingMode
    (mkProps "color" (Some (mkGrouping {["color" := true]}))
             [mkOption "run.hash" "run" "run.hash"])
    (VStr "Group")
  = [OnGroupingModeChange "color" false
       (Some [mkOption "run.hash" "run" "run.hash"])].
Proof. reflexivity. Qed.

(** C10: on a Backspace key with a filter input that is not empty, [onChange]
    does not call [onSelect] and leaves the input as it is; on every other
    key (and on a change with no event) it calls [onSelect] once, with the
    group name and the new values, element by element (a bare string as it
    is, an option by its value), and sets the filter input to the empty
    string. *)
Theorem onChange_backspace_guard (props : IGroupingPopoverProps)
    (inputValue : string) (e : jsval) (values : list SelectItem) :
  (opt_member e "code" = VStr "Backspace" -> inputValue <> "" ->
   onChange props inputValue e values = ([], inputValue)) /\
  (opt_member e "code" <> VStr "Backspace" ->
   exists selected : list string,
     onChange props inputValue e values
     = ([OnSelect (groupName props) selected], "") /\
     Forall2 (fun item field =>
                match item with
                | ItemString s => field = s
                | ItemOption o => field = value o
                end)
             values selected) /\
  (forall chosen : list IGroupingSelectOption,
     opt_member e "code" <> VStr "Backspace" ->
     onChange props inputValue e (map ItemOption chosen)
     = ([OnSelect (groupName props) (map value chosen)], "")).
Proof.
  assert (Hother : forall items,
    opt_member e "code" <> VStr "Backspace" ->
    onChange props inputValue e items
    = ([OnSelect (groupName props) (map item_value items)], "")).
  { intros items Hk. unfold onChange, handleSelect.
    destruct (strict_eq_str (opt_member e "code") "Backspace") eqn:E;
      [|reflexivity].
    by apply strict_eq_str_true in E. }
  split; [|split].
  - unfold onChange. intros -> Hne. simpl.
    destruct inputValue; [done|reflexivity].
  - intros Hk. exists (map item_value values). split; [by apply Hother|].
    induction values as [|item items IH]; simpl; constructor; [|done].
    by destruct item.
  - intros chosen Hk. rewrite (Hother _ Hk), map_map. reflexivity.
Qed.

(** Backspace in an empty filter input removes the last selected value: the
    selection callback is invoked, the input stays empty. *)
Lemma onChange_backspace_empty (props : IGroupingPopoverProps) (e : jsval)
    (values : list SelectItem) :
  opt_member e "code" = VStr "Backspace" ->
  onChange props "" e values
  = ([OnSelect (groupName props) (map item_value values)], "").
Proof. unfold onChange. by intros ->. Qed.

Example onChange_backspace_while_typing :
  onChange (mkProps "color" None []) "ru"
           (VObj {["code" := VStr "Backspace"]})
           [ItemOption (mkOption "run.hash" "run" "run.hash")]
  = ([], "ru").
Proof. reflexivity. Qed.

Example onChange_select :
  onChange (mkProps "color" None []) "ru"
           (VObj {["type" := VStr "click"]})
           [ItemOption (mkOption "run.hash" "run" "hash"); ItemString "ru"]
  = ([OnSelect "color" ["run.hash"; "ru"]], "").
Proof. reflexivity. Qed.

End GroupingPopoverFacts.

(** ** TextExplorerAppBar *)

Module TextExplorerAppBarFacts.
Import JS TextExplorerAppBar.

(** The popover state after a run of controls, from a given state. *)
Lemma handle_state (appId : jsval) (c : Control) (popover : string) :
  snd (handle appId c popover)
  = match c with
    | MenuCreateBookmark | BookmarkButton => "create"
    | MenuUpdateBookmark => "update"
    | _ => ""
    end.
Proof. by destruct c. Qed.

(** C6: the bookmark form is open exactly when the popover state is create
    and the update dialog exactly when it is update; choosing create (the
    menu item, or the button shown without an appId) opens the form and not
    the dialog, choosing update opens the dialog and not the form; closing
    the form or the dialog, cancelling and saving set the state to the empty
    string, with which neither is open. *)
Theorem bookmark_popover_dialogs (appId : jsval) (popover : string) :
  (bookmarkForm_open popover = true <-> popover = "create") /\
  (dialog_open popover = true <-> popover = "update") /\
  (forall c, c = MenuCreateBookmark \/ c = BookmarkButton ->
     let popover' := snd (handle appId c popover) in
     popover' = "create" /\
     bookmarkForm_open popover' = true /\ dialog_open popover' = false) /\
  (let popover' := snd (handle appId MenuUpdateBookmark popover) in
   popover' = "update" /\
   dialog_open popover' = true /\ bookmarkForm_open popover' = false) /\
  (forall c,
     c = BookmarkFormClose \/ c = DialogClose \/ c = DialogCancel
     \/ c = DialogSave ->
     let popover' := snd (handle appId c popover) in
     popover' = "" /\
     bookmarkForm_open popover' = false /\ dialog_open popover' = false).
Proof.
  unfold bookmarkForm_open, dialog_open.
  split; [apply String.eqb_eq|]. split; [apply String.eqb_eq|].
  split; [|split].
  - by intros c [-> | ->].
  - done.
  - by intros c [-> | [-> | [-> | ->]]].
Qed.

(** The form and the dialog are never open together, and neither is open
    when the bar is first rendered. *)
Lemma not_both_open (popover : string) :
  bookmarkForm_open popover && dialog_open popover = false.
Proof.
  unfold bookmarkForm_open, dialog_open.
  destruct (String.eqb_spec popover "create") as [->|]; [done|].
  by destruct (popover =? "update")%string.
Qed.

Lemma initial_closed :
  bookmarkForm_open initial = false /\ dialog_open initial = false.
Proof. done. Qed.

(** Saving calls [onBookmarkUpdate] with the appId of the route, once. *)
Lemma save_updates_bookmark (appId : jsval) (popover : string) :
  handle appId DialogSave popover = ([OnBookmarkUpdate appId], "").
Proof. reflexivity. Qed.

(** The update item is offered only on a route with an appId, where the
    plain bookmark button is not. *)
Lemma update_needs_appId (appId : jsval) :
  rendered appId MenuUpdateBookmark = negb (rendered appId BookmarkButton).
Proof. simpl. by destruct (truthy appId). Qed.

End TextExplorerAppBarFacts.

(** ** AskForm *)

Module AskFormFacts.
Import JS AskForm.

(** What [handleSubmit] does is decided by the truth of [data.ok]. *)
Lemma handleSubmit_fulfilled (onSendEmail : jsval -> Settled) (email : string)
    (data : jsval) :
  onSendEmail (request email) = Fulfilled data ->
  nullish data = false ->
  handleSubmit onSendEmail email
  = (if truthy (prop data "ok") then [SetEmail ""] else [], true).
Proof.
  intros Hs Hn. unfold handleSubmit, member. rewrite Hs, Hn.
  by destruct (truthy (prop data "ok")).
Qed.

(** C5, as the code has it: a submission sets the email to the empty string
    if and only if it settles with a result that is neither undefined nor
    null and whose [ok] is truthy, which the boolean true is and false is
    not; otherwise (a falsy or missing [ok], a rejected request, a nullish
    result) the handler makes no state update, so the text of the input,
    whatever it is by then, stays as it is. *)
Theorem email_cleared_iff_ok_truthy (onSendEmail : jsval -> Settled)
    (email : string) :
  let updates := fst (handleSubmit onSendEmail email) in
  (updates = [SetEmail ""] <->
   exists data,
     onSendEmail (request email) = Fulfilled data
     /\ nullish data = false /\ truthy (prop data "ok") = true) /\
  (updates = [SetEmail ""] -> forall current, apply current updates = "") /\
  (updates <> [SetEmail ""] ->
   updates = [] /\ forall current, apply current updates = current) /\
  (forall data,
     onSendEmail (request email) = Fulfilled data ->
     (prop data "ok" = VBool true -> updates = [SetEmail ""]) /\
     (prop data "ok" = VBool false -> updates = [])).
Proof.
  cbv zeta. unfold handleSubmit, member.
  destruct (onSendEmail (request email)) as [data|reason] eqn:Hs.
  - destruct (nullish data) eqn:Hn.
    + simpl. split; [|split; [done|split]].
      * split; [done|]. intros (d & [= Hd] & Hd' & _). congruence.
      * done.
      * intros d [= Hd]. subst d. by destruct data.
    + destruct (truthy (prop data "ok")) eqn:Hok; simpl.
      * split; [|split; [done|split; [done|]]].
        -- split; [|done]. intros _. by exists data.
        -- intros d [= Hd]. subst d. split; [done|].
           intros Hf. by rewrite Hf in Hok.
      * split; [|split; [done|split; [done|]]].
        -- split; [done|]. intros (d & [= Hd] & _ & Hd'). congruence.
        -- intros d [= Hd]. subst d. split; [|done].
           intros Ht. by rewrite Ht in Hok.
  - simpl. split; [|split; [done|split; [done|done]]].
    split; [done|]. by intros (d & [=] & _).
Qed.

(** A result whose [ok] is the string false, or the number 1, clears the
    input although its [ok] is not the boolean true. *)
Lemma truthy_ok_clears :
  fst (handleSubmit (fun _ => Fulfilled (VObj {["ok" := VStr "false"]}))
                    "gev@aimstack.io")
  = [SetEmail ""] /\
  prop (VObj {["ok" := VStr "false"]}) "ok" <> VBool true /\
  fst (handleSubmit (fun _ => Fulfilled (VObj {["ok" := VNum 1]}))
                    "gev@aimstack.io")
  = [SetEmail ""] /\
  prop (VObj {["ok" := VNum 1]}) "ok" <> VBool true.
Proof.
  split; [by vm_compute|]. split; [by vm_compute|].
  split; by vm_compute.
Qed.

(** A submission that is rejected, or that resolves to no object, updates
    nothing. *)
Lemma handleSubmit_failed (onSendEmail : jsval -> Settled) (email : string) :
  (forall data, onSendEmail (request email) = Fulfilled data ->
                nullish data = true) ->
  handleSubmit onSendEmail email = ([], false).
Proof.
  intros H. unfold handleSubmit, member.
  destruct (onSendEmail (request email)) as [data|]; [|done].
  by rewrite (H data eq_refl).
Qed.

Example handleSubmit_not_ok :
  handleSubmit (fun _ => Fulfilled (VObj {["ok" := VBool false;
                                           "status" := VNum 400]}))
               "gev"
  = ([], true).
Proof. reflexivity. Qed.

End AskFormFacts.

(** ** onTableResizeModeChange *)

Module TableResizeFacts.
Import JS Client TableResize.

Lemma opt_member_obj (v : jsval) (k : string) (o : gmap string jsval) :
  opt_member v k = VObj o ->
  exists fields, v = VObj fields /\ fields !! k = Some (VObj o).
Proof.
  destruct v as [| | | | |fields]; try discriminate. unfold opt_member; simpl.
  destruct (fields !! k) as [x|] eqn:E; simpl; [|discriminate].
  intros ->. by exists fields.
Qed.

(** A model whose [config.table] is an object holds an object with an object
    [config]. *)
Lemma table_of_obj (w : World) (model : ModelRef) (t : gmap string jsval) :
  table_of w model = VObj t ->
  exists state config,
    state_of w model = VObj state /\
    state !! "config" = Some (VObj config) /\
    config !! "table" = Some (VObj t).
Proof.
  unfold table_of. intros (config & Hc & Ht)%opt_member_obj.
  unfold config_of in Hc. apply opt_member_obj in Hc as (state & Hs & Hc).
  by exists state, config.
Qed.

Section WithEncoder.
Variable encode : gmap string jsval -> string.



Lemma onTableResizeModeChange_table (params : IOnTableResizeModeChangeParams)
    (w : World) (state config t : gmap string jsval) :
  state_of w (model params) = VObj state ->
  state !! "config" = Some (VObj config) ->
  config !! "table" = Some (VObj t) ->
  onTableResizeModeChange encode params w
  = match label_of params with
    | Some label =>
        Returned tt
          {| models :=
               <[model params :=
                   VObj (<["config" :=
                             VObj (<["table" :=
                                       VObj (<["resizeMode" := mode params]>
                                               t)]>
                                     config)]> state)]> (models w);
             localStorage :=
               <[storage_key params :=
                   encode (<["resizeMode" := mode params]> t)]>
                 (localStorage w);
             clock := clock w;
             calls := (calls w ++ [TrackEvent label])%list |}
    | None =>
        Thrown
          {| models :=
               <[model params :=
                   VObj (<["config" :=
                             VObj (<["table" :=
                                       VObj (<["resizeMode" := mode params]>
                                               t)]>
                                     config)]> state)]> (models w);
             localStorage :=
               <[storage_key params :=
                   encode (<["resizeMode" := mode params]> t)]>
                 (localStorage w);
             clock := clock w;
             calls := calls w |}
    end.
Proof.
  intros Hs Hc Ht.
  unfold onTableResizeModeChange, label_of, bind, must, ret, throw, getState,
    setState, setItem, trackEvent, with_call, with_state, state_of in *; simpl.
  rewrite Hs. unfold opt_member; simpl. rewrite Hc; simpl. rewrite Ht; simpl.
  rewrite Hs; simpl. rewrite <- insert_union_singleton_l.
  by destruct (ToString (mode params)).
Qed.

(** C7: when the [config.table] of the model state is an object, the call
    stores, in local storage under the key made of the page name followed by
    Table, what [encode] returns for the new table configuration, which is the
    old one with [resizeMode] set to the requested mode and is the table the
    model holds afterwards. *)
Theorem table_config_persisted (params : IOnTableResizeModeChangeParams)
    (w : World) (t : gmap string jsval) :
  table_of w (model params) = VObj t ->
  let w' := world_of (onTableResizeModeChange encode params w) in
  let table := <["resizeMode" := mode params]> t in
  storage_key params = page params +:+ "Table" /\
  localStorage w' !! storage_key params = Some (encode table) /\
  table_of w' (model params) = VObj table /\
  table !! "resizeMode" = Some (mode params) /\
  (forall key, key <> storage_key params ->
     localStorage w' !! key = localStorage w !! key).
Proof.
  intros (state & config & Hs & Hc & Ht)%table_of_obj. cbv zeta.
  rewrite (onTableResizeModeChange_table _ _ _ _ _ Hs Hc Ht).
  destruct (label_of params); simpl.
  all: split; [done|]; split; [apply lookup_insert_eq|].
  all: split; [|split; [apply lookup_insert_eq|]].
  all: try (intros key Hk; by apply lookup_insert_ne).
  all: unfold table_of, config_of, state_of; simpl.
  all: rewrite lookup_insert_eq; simpl; unfold opt_member; simpl.
  all: rewrite lookup_insert_eq; simpl; by rewrite lookup_insert_eq.
Qed.

(** C8: when the [config.table] of the model state is an object, the call
    changes of the [config] of the model the field [table] only, and of that
    table the field [resizeMode] only, which becomes the requested mode;
    the other fields of the state and the other models keep their value
    too. *)
Theorem only_resizeMode_changes (params : IOnTableResizeModeChangeParams)
    (w : World) (t : gmap string jsval) :
  table_of w (model params) = VObj t ->
  let w' := world_of (onTableResizeModeChange encode params w) in
  let m := model params in
  (forall k, k <> "table" ->
     prop (config_of w' m) k = prop (config_of w m) k) /\
  (forall k, k <> "resizeMode" ->
     prop (table_of w' m) k = prop (table_of w m) k) /\
  prop (table_of w' m) "resizeMode" = mode params /\
  (forall k, k <> "config" ->
     prop (state_of w' m) k = prop (state_of w m) k) /\
  (forall m', m' <> m -> state_of w' m' = state_of w m').
Proof.
  intros Htab. pose proof Htab as (state & config & Hs & Hc & Ht)%table_of_obj.
  cbv zeta. rewrite (onTableResizeModeChange_table _ _ _ _ _ Hs Hc Ht).
  assert (Hcfg : config_of w (model params) = VObj config).
  { unfold config_of, opt_member. rewrite Hs; simpl. by rewrite Hc. }
  rewrite Htab, Hcfg, Hs.
  destruct (label_of params).
  all: unfold table_of, config_of, state_of; simpl.
  all: rewrite lookup_insert_eq; simpl; unfold opt_member; simpl.
  all: rewrite lookup_insert_eq; simpl; rewrite lookup_insert_eq; simpl.
  all: split; [|split; [|split; [|split]]].
  all: try by rewrite lookup_insert_eq.
  all: intros k Hk; by rewrite lookup_insert_ne.
Qed.



Example no_config_only_tracks :
  onTableResizeModeChange encode (mkParams 7%nat (VStr "Hide") "metrics")
    (mkWorld ∅ ∅ 0 [])
  = Returned tt
      (mkWorld ∅ ∅ 0
         [TrackEvent ("[metricsExplorer][Table] Set table view mode to "
                      +:+ dquote +:+ "Hide" +:+ dquote)]).
Proof. reflexivity. Qed.

End WithEncoder.


Lemma table_config_persisted_witness :
  localStorage
    (world_of
       (onTableResizeModeChange
          (fun t => default "" (ToString (prop (VObj t) "resizeMode")))
          (mkParams 7%nat (VStr "Hide") "runs")
          (mkWorld
             {[ 7%nat :=
                  VObj {["config" :=
                           VObj {["table" :=
                                    VObj {["rowHeight" := VNum 26]}]}]} ]}
             ∅ 0 [])))
  !! "runsTable"
  = Some "Hide".
Proof.
  pose proof (table_config_persisted
                (fun t => default "" (ToString (prop (VObj t) "resizeMode")))
                (mkParams 7%nat (VStr "Hide") "runs")
                (mkWorld
                   {[ 7%nat :=
                        VObj {["config" :=
                                 VObj {["table" :=
                                          VObj {["rowHeight" := VNum 26]}]}]} ]}
                   ∅ 0 [])
                {["rowHeight" := VNum 26]}) as H.
  cbv zeta in H. destruct H as (_ & H & _); [by vm_compute|].
  etransitivity; [exact H|]. by vm_compute.
Defined.

Lemma only_resizeMode_changes_witness :
  prop (table_of
          (world_of
             (onTableResizeModeChange (fun _ => "")
                (mkParams 7%nat (VStr "Hide") "runs")
                (mkWorld
                   {[ 7%nat :=
                        VObj {["config" :=
                                 VObj {["table" :=
                                          VObj {["rowHeight" := VNum 26;
                                                 "resizeMode" :=
                                                   VStr "Resizable"]}]}]} ]}
                   ∅ 0 [])))
          7%nat)
       "rowHeight"
  = VNum 26.
Proof.
  pose proof (only_resizeMode_changes (fun _ => "")
                (mkParams 7%nat (VStr "Hide") "runs")
                (mkWorld
                   {[ 7%nat :=
                        VObj {["config" :=
                                 VObj {["table" :=
                                          VObj {["rowHeight" := VNum 26;
                                                 "resizeMode" :=
                                                   VStr "Resizable"]}]}]} ]}
                   ∅ 0 [])
                {["rowHeight" := VNum 26; "resizeMode" := VStr "Resizable"]})
    as H.
  cbv zeta in H. destruct H as (_ & H & _); [by vm_compute|].
  etransitivity; [exact (H "rowHeight" ltac:(done))|]. by vm_compute.
Defined.

End TableResizeFacts.

(** ** exceptionHandler *)

Module ExceptionHandlerFacts.
Import JS Client ExceptionHandler StringFacts.

(** The conversion to a string throws for the objects with an own property
    [toString], and for nothing else. *)
Lemma ToString_None (v : jsval) :
  ToString v = None <->
  exists fields own, v = VObj fields /\ fields !! "toString" = Some own.
Proof.
  destruct v as [| | [] | | |fields]; simpl;
    try (split; [done | by intros (? & ? & ? & _)]).
  destruct (fields !! "toString") as [own|] eqn:E.
  - split; [|done]. intros _. by exists fields, own.
  - split; [done|]. intros (? & ? & [= <-] & ?). congruence.
Qed.

(** The three ways the first statement of the handler goes. *)
Lemma message_of_nullish (detail : jsval) (w : World) :
  nullish detail = true -> message_of detail w = Thrown w.
Proof. intros Hn. unfold message_of, bind, must, member. by rewrite Hn. Qed.

Lemma message_of_syntax (detail : jsval) (w : World) :
  prop detail "name" = VStr "SyntaxError" ->
  message_of detail w
  = match ToString (prop detail "line"), ToString (prop detail "offset") with
    | Some line, Some offset =>
        Returned (VStr ("Query syntax error at line (" +:+ line +:+ ", "
                        +:+ offset +:+ ")")) w
    | _, _ => Thrown w
    end.
Proof.
  intros Hname. assert (Hn : nullish detail = false) by by destruct detail.
  unfold message_of, bind, must, member. rewrite Hn. unfold ret.
  rewrite Hname. simpl.
  by destruct (ToString (prop detail "line")),
       (ToString (prop detail "offset")).
Qed.

Lemma message_of_other (detail : jsval) (w : World) :
  nullish detail = false ->
  prop detail "name" <> VStr "SyntaxError" ->
  message_of detail w
  = Returned (or_else (prop detail "message") (VStr "Something went wrong")) w.
Proof.
  intros Hn Hname. unfold message_of, bind, must, member. rewrite Hn.
  unfold ret.
  destruct (strict_eq_str (prop detail "name") "SyntaxError") eqn:E; [|done].
  by apply strict_eq_str_true in E.
Qed.

(** Computing the message changes nothing. *)
Lemma message_of_world (detail : jsval) (w : World) :
  world_of (message_of detail w) = w.
Proof.
  destruct (nullish detail) eqn:Hn; [by rewrite message_of_nullish|].
  destruct (strict_eq_str (prop detail "name") "SyntaxError") eqn:E.
  - apply strict_eq_str_true in E. rewrite (message_of_syntax _ _ E).
    by destruct (ToString (prop detail "line")),
         (ToString (prop detail "offset")).
  - rewrite message_of_other; [done|done|].
    intros H%strict_eq_str_true. congruence.
Qed.

(** It throws on [undefined] and [null], and on a syntax error whose line or
    offset does not convert to a string. *)
Lemma message_of_throws (detail : jsval) (w : World) :
  returned (message_of detail w) = false <->
  nullish detail = true
  \/ (prop detail "name" = VStr "SyntaxError"
      /\ (ToString (prop detail "line") = None
          \/ ToString (prop detail "offset") = None)).
Proof.
  destruct (nullish detail) eqn:Hn.
  { rewrite message_of_nullish by done. split; [by left | done]. }
  destruct (strict_eq_str (prop detail "name") "SyntaxError") eqn:E.
  - apply strict_eq_str_true in E. rewrite (message_of_syntax _ _ E).
    destruct (ToString (prop detail "line")),
      (ToString (prop detail "offset")); simpl; intuition congruence.
  - assert (Hname : prop detail "name" <> VStr "SyntaxError").
    { intros H%strict_eq_str_true. congruence. }
    rewrite message_of_other by done. simpl. intuition congruence.
Qed.

Section WithHelpers.
Variable BadRequest : jsval.
Variable notified : INotification -> jsval -> jsval.
Variable reset : jsval -> jsval -> jsval.

(** The handler, run on an exception that has properties. *)
Lemma exceptionHandler_run (detail : jsval) (model : ModelRef) (w : World)
    (message : jsval) :
  message_of detail w = Returned message w ->
  let n := {| notification_id := clock w; severity := "error";
              messages := [message] |} in
  let flagged :=
    VObj ({["requestStatus" := BadRequest]} ∪ spread (state_of w model)) in
  exceptionHandler BadRequest notified reset detail model w
  = Returned tt
      {| models :=
           <[model := reset detail (notified n flagged)]> (models w);
         localStorage := localStorage w;
         clock := clock w;
         calls := (calls w ++ [OnNotificationAdd n model;
                               ResetModelOnError detail model])%list |}.
Proof.
  intros Hm. cbv zeta.
  unfold exceptionHandler, bind. rewrite Hm.
  unfold setState, Date_now, onNotificationAdd, resetModelOnError,
    with_call, with_state, state_of; simpl.
  rewrite !lookup_insert_eq; simpl.
  by rewrite !insert_insert_eq, <- app_assoc.
Qed.

(** When the message cannot be computed the handler throws with it. *)
Lemma exceptionHandler_throws (detail : jsval) (model : ModelRef) (w : World) :
  returned (message_of detail w) = false ->
  exceptionHandler BadRequest notified reset detail model w = Thrown w.
Proof.
  intros Hr. pose proof (message_of_world detail w) as Hw.
  unfold exceptionHandler, bind.
  destruct (message_of detail w) as [m w'|w']; simpl in *; congruence.
Qed.

Lemma exceptionHandler_returns (detail : jsval) (model : ModelRef) (w : World) :
  returned (message_of detail w) = true ->
  exists message, message_of detail w = Returned message w.
Proof.
  intros Hr. pose proof (message_of_world detail w) as Hw.
  destruct (message_of detail w) as [m w'|w']; simpl in *; [|done].
  exists m. congruence.
Qed.



End WithHelpers.





Example syntax_error_reported :
  calls
    (world_of
       (exceptionHandler (VNum 3) (fun _ st => st) (fun _ st => st)
          (VObj {["name" := VStr "SyntaxError"; "line" := VNum 2;
                  "offset" := VNum 7; "message" := VStr "invalid syntax"]})
          1%nat (mkWorld ∅ ∅ 1700000000000 [])))
  = [OnNotificationAdd
       {| notification_id := 1700000000000; severity := "error";
          messages := [VStr "Query syntax error at line (2, 7)"] |} 1%nat;
     ResetModelOnError
       (VObj {["name" := VStr "SyntaxError"; "line" := VNum 2;
               "offset" := VNum 7; "message" := VStr "invalid syntax"]})
       1%nat].
Proof. by vm_compute. Qed.

End ExceptionHandlerFacts.

(** ** GroupingPopover: narrowing and refiltering *)

Module GroupingPopoverMore.
Import JS GroupingPopover StringFacts SortFacts GroupingPopoverFacts.

Lemma append_assoc (a b c : string) : (a +:+ b) +:+ c = a +:+ (b +:+ c).
Proof.
  induction a as [|x a IH]; [done|]. by rewrite !append_cons, IH.
Qed.

Lemma substring_of_trans (a b c : string) :
  substring_of a b -> substring_of b c -> substring_of a c.
Proof.
  intros (i & pre & post & -> & _) (j & pre' & post' & -> & _).
  exists (String.length (pre' +:+ pre)), (pre' +:+ pre), (post +:+ post').
  split; [|done]. by rewrite !append_assoc.
Qed.

Lemma blank_append (a b : string) : blank (a +:+ b) = blank a && blank b.
Proof.
  induction a as [|x a IH]; [done|].
  rewrite append_cons. simpl. by rewrite IH, andb_assoc.
Qed.

(** A blank string has blank substrings only. *)
Lemma blank_substring (a b : string) :
  substring_of a b -> blank b = true -> blank a = true.
Proof.
  intros (i & pre & post & -> & _). rewrite !blank_append.
  intros [_ H]%andb_true_iff. by apply andb_true_iff in H as [Ha _].
Qed.

(** What is shown: every option for a blank input, the matching ones
    otherwise. *)
Lemma options_In (props : IGroupingPopoverProps) (inputValue : string)
    (o : IGroupingSelectOption) :
  In o (options props inputValue) <->
  In o (groupingSelectOptions props)
  /\ (blank inputValue = true \/ substring_of inputValue (label o)).
Proof.
  destruct (blank inputValue) eqn:Hb.
  - rewrite options_blank by by apply trim_empty. tauto.
  - assert (Hne : trim inputValue <> "").
    { rewrite trim_empty. congruence. }
    rewrite (options_filtering _ _ Hne).
    rewrite <- includes_spec.
    change (includes (label o) inputValue) with (matching inputValue o).
    split.
    + intros H%(Permutation_in _ (sort_perm _ _)).
      apply filter_In in H. tauto.
    + intros [Hin [|Hm]]; [done|].
      apply (Permutation_in _ (Permutation_sym (sort_perm _ _))).
      by apply filter_In.
Qed.

(** X1: Typing more never adds an option: an input that contains another one
    shows nothing the other does not show. *)
Theorem options_narrow (props : IGroupingPopoverProps) (shorter longer : string)
    (o : IGroupingSelectOption) :
  substring_of shorter longer ->
  In o (options props longer) -> In o (options props shorter).
Proof.
  intros Hsub. rewrite !options_In. intros [Hin [Hb|Hm]].
  - split; [done|]. left. by apply (blank_substring _ _ Hsub).
  - split; [done|]. right. by apply (substring_of_trans _ longer).
Qed.

Lemma options_narrow_witness :
  In (mkOption "run.hash" "run" "run.hash")
     (options (mkProps "color" None
                 [mkOption "run.name" "run" "run.name";
                  mkOption "run.hash" "run" "run.hash"])
              "run.").
Proof.
  apply (options_narrow _ "run." "run.h").
  - exists 0%nat, "", "h". by split.
  - vm_compute. tauto.
Defined.

(** A list with all its elements passing a test is what the filter keeps. *)
Lemma filter_all {A : Type} (f : A -> bool) (l : list A) :
  (forall a, In a l -> f a = true) -> List.filter f l = l.
Proof.
  induction l as [|a l IH]; intros H; simpl; [done|].
  rewrite (H a) by by left. f_equal. apply IH. intros b Hb. apply H. by right.
Qed.

(** Sorting a sorted list returns it. *)
Lemma sort_sorted_id {A : Type} (key : A -> Z) (l : list A) :
  StronglySorted (key_le key) l -> sort (by_key key) l = l.
Proof.
  intros Hs. apply (sort_unique key); [apply sort_sorted | done |].
  intros k. apply sort_stable.
Qed.

(** X2: Filtering the list shown with the input that produced it changes
    nothing: the memo is a fixed point of its own computation. *)
Theorem options_idempotent (props : IGroupingPopoverProps)
    (inputValue : string) :
  options (mkProps (groupName props) (groupingData props)
                   (options props inputValue))
          inputValue
  = options props inputValue.
Proof.
  destruct (blank inputValue) eqn:Hb.
  - by rewrite !options_blank by by apply trim_empty.
  - assert (Hne : trim inputValue <> "").
    { rewrite trim_empty. congruence. }
    rewrite (options_filtering (mkProps _ _ _) _ Hne). simpl.
    rewrite (options_filtering props _ Hne).
    set (shown := sort (by_key (position inputValue))
                       (List.filter (matching inputValue)
                                    (groupingSelectOptions props))).
    rewrite (filter_all (matching inputValue) shown).
    + apply sort_sorted_id, sort_sorted.
    + intros o Ho. apply (Permutation_in _ (sort_perm _ _)) in Ho.
      by apply filter_In in Ho as [_ Ho].
Qed.

(** X3: Making a selection clears the filter, so the Autocomplete lists every
    option again; a Backspace while a filter is typed leaves the list as
    filtered. *)
Theorem selection_restores_options (props : IGroupingPopoverProps)
    (inputValue : string) (e : jsval) (values : list SelectItem) :
  (opt_member e "code" <> VStr "Backspace" ->
   options props (snd (onChange props inputValue e values))
   = groupingSelectOptions props) /\
  (opt_member e "code" = VStr "Backspace" ->
   options props (snd (onChange props inputValue e values))
   = options props inputValue).
Proof.
  unfold onChange. split.
  - intros He.
    destruct (strict_eq_str (opt_member e "code") "Backspace") eqn:E.
    { by apply strict_eq_str_true in E. }
    simpl. by apply options_blank.
  - intros ->. simpl. by destruct (String.length inputValue =? 0)%nat.
Qed.

End GroupingPopoverMore.

(** ** GroupingPopover: the selected values *)

Module GroupingValuesFacts.
Import JS GroupingPopover GroupingValues StringFacts SortFacts.

Lemma array_search_shift (x : string) (l : list string) (i : nat) :
  array_search x l (S i) = S <$> array_search x l i.
Proof.
  revert i. induction l as [|y l IH]; intros i; simpl; [done|].
  destruct (y =? x)%string; [done|]. apply IH.
Qed.

Lemma array_indexOf_cons (y : string) (l : list string) (x : string) :
  array_indexOf (y :: l) x
  = if (y =? x)%string then 0
    else if array_indexOf l x =? -1 then -1 else array_indexOf l x + 1.
Proof.
  unfold array_indexOf. simpl. destruct (y =? x)%string; [done|].
  rewrite array_search_shift.
  destruct (array_search x l 0) as [i|]; simpl; [|done].
  destruct (Z.eqb_spec (Z.of_nat i) (-1)); lia.
Qed.

Lemma array_indexOf_range (l : list string) (x : string) :
  -1 <= array_indexOf l x.
Proof. unfold array_indexOf. destruct (array_search x l 0); lia. Qed.

(** [indexOf] answers -1 exactly for what the array does not hold. *)
Lemma array_indexOf_none (l : list string) (x : string) :
  array_indexOf l x = -1 <-> ~ In x l.
Proof.
  induction l as [|y l IH]; [split; [intros _ [] | done]|].
  rewrite array_indexOf_cons. pose proof (array_indexOf_range l x).
  destruct (String.eqb_spec y x) as [->|Hne]; simpl.
  - split; [lia|]. intros Hn. exfalso. apply Hn. by left.
  - destruct (Z.eqb_spec (array_indexOf l x) (-1)) as [E|E].
    + split; [|done]. intros _ [?|Hin]; [done|]. by apply IH.
    + split; [lia|]. intros Hn. exfalso. apply E, IH. tauto.
Qed.

Lemma array_indexOf_found (l : list string) (x : string) :
  In x l -> array_indexOf l x <> -1.
Proof. intros Hin E. by apply array_indexOf_none in E. Qed.

Lemma array_indexOf_inj (l : list string) (x y : string) :
  In x l -> array_indexOf l x = array_indexOf l y -> x = y.
Proof.
  induction l as [|z l IH]; [intros []|].
  rewrite !array_indexOf_cons.
  pose proof (array_indexOf_range l x). pose proof (array_indexOf_range l y).
  intros Hin.
  destruct (String.eqb_spec z x) as [->|Hzx].
  - destruct (String.eqb_spec x y) as [|Hxy]; [done|].
    destruct (Z.eqb_spec (array_indexOf l y) (-1)); lia.
  - destruct Hin as [|Hin]; [done|].
    assert (array_indexOf l x <> -1) by by apply array_indexOf_found.
    destruct (Z.eqb_spec (array_indexOf l x) (-1)); [done|].
    destruct (String.eqb_spec z y); [lia|].
    destruct (Z.eqb_spec (array_indexOf l y) (-1)); [lia|].
    intros Heq. apply IH; [done | lia].
Qed.

Lemma StronglySorted_members {A : Type} (R R' : A -> A -> Prop) (l : list A) :
  (forall a b, In a l -> In b l -> R a b -> R' a b) ->
  StronglySorted R l -> StronglySorted R' l.
Proof.
  intros Himp Hs. induction Hs as [|a l Hs IH Ha]; constructor.
  - apply IH. intros b c Hb Hc. apply Himp; by right.
  - rewrite List.Forall_forall in *. intros b Hb.
    apply Himp; [by left | by right | by apply Ha].
Qed.

Lemma StronglySorted_filter {A : Type} (R : A -> A -> Prop) (f : A -> bool)
    (l : list A) :
  StronglySorted R l -> StronglySorted R (List.filter f l).
Proof.
  induction 1 as [|a l Hs IH Ha]; simpl; [constructor|].
  destruct (f a); [|done]. constructor; [done|].
  rewrite List.Forall_forall in *. intros b [Hb _]%filter_In. by apply Ha.
Qed.

Lemma StronglySorted_map {A B : Type} (f : A -> B) (key : B -> Z)
    (l : list A) :
  StronglySorted (key_le (fun a => key (f a))) l ->
  StronglySorted (key_le key) (map f l).
Proof.
  induction 1 as [|a l Hs IH Ha]; simpl; constructor; [done|].
  rewrite List.Forall_forall in *. intros b (a' & <- & Ha')%in_map_iff.
  by apply Ha.
Qed.

(** An array without repetition lists its elements by increasing index. *)
Lemma applied_sorted (l : list string) :
  List.NoDup l -> StronglySorted (key_le (array_indexOf l)) l.
Proof.
  induction 1 as [|y l Hy Hnd IH]; constructor.
  - apply (StronglySorted_members (key_le (array_indexOf l))); [|done].
    intros a b Ha Hb. unfold key_le. rewrite !array_indexOf_cons.
    assert (array_indexOf l a <> -1) by by apply array_indexOf_found.
    assert (array_indexOf l b <> -1) by by apply array_indexOf_found.
    destruct (String.eqb_spec y a) as [->|]; [done|].
    destruct (String.eqb_spec y b) as [->|]; [done|].
    destruct (Z.eqb_spec (array_indexOf l a) (-1)); [done|].
    destruct (Z.eqb_spec (array_indexOf l b) (-1)); [done|]. lia.
  - rewrite List.Forall_forall. intros b Hb. unfold key_le.
    rewrite !array_indexOf_cons, String.eqb_refl.
    pose proof (array_indexOf_range l b).
    destruct (String.eqb_spec y b); [lia|].
    assert (array_indexOf l b <> -1) by by apply array_indexOf_found.
    destruct (Z.eqb_spec (array_indexOf l b) (-1)); [done|]. lia.
Qed.

Lemma is_applied_spec (applied : list string) (o : IGroupingSelectOption) :
  is_applied applied o = true <-> In (value o) applied.
Proof.
  unfold is_applied. rewrite negb_true_iff, Z.eqb_neq, array_indexOf_none.
  destruct (in_dec string_dec (value o) applied); tauto.
Qed.

Lemma is_option_value_spec (opts : list IGroupingSelectOption) (v : string) :
  is_option_value opts v = true <-> In v (map value opts).
Proof.
  unfold is_option_value. rewrite existsb_exists, in_map_iff.
  split; intros (o & H1 & H2); exists o.
  - by apply String.eqb_eq in H2.
  - split; [done|]. by apply String.eqb_eq.
Qed.

(** The memo with a grouping configuration that has the array. *)
Lemma values_applied (props : IGroupingPopoverProps)
    (fields : gmap string (list string)) (g : IGroupingConfig)
    (applied : list string) :
  groupingData props = Some g ->
  fields !! groupName props = Some applied ->
  values props fields
  = Some (sort (by_key (applied_index applied))
               (List.filter (is_applied applied)
                            (groupingSelectOptions props))).
Proof. intros Hg Hf. unfold values. by rewrite Hg, Hf. Qed.

(** X4: With a grouping configuration that holds the array of applied fields,
    the values shown as selected are the options whose value is applied,
    each as often as the option list has it, in the order in which their
    values were applied; options of one value keep the order of the option
    list. *)
Theorem values_applied_in_order (props : IGroupingPopoverProps)
    (fields : gmap string (list string)) (g : IGroupingConfig)
    (applied : list string) :
  groupingData props = Some g ->
  fields !! groupName props = Some applied ->
  exists selected,
    values props fields = Some selected /\
    (forall o, In o selected <->
               In o (groupingSelectOptions props) /\ In (value o) applied) /\
    Permutation selected
      (List.filter (is_applied applied) (groupingSelectOptions props)) /\
    StronglySorted (key_le (applied_index applied)) selected /\
    (forall i, 0 <= i ->
       List.filter (has_key (applied_index applied) i) selected
       = List.filter (has_key (applied_index applied) i)
                     (groupingSelectOptions props)).
Proof.
  intros Hg Hf. eexists. split; [by apply (values_applied _ _ g)|].
  split; [|split; [apply sort_perm | split; [apply sort_sorted|]]].
  - intros o. rewrite <- is_applied_spec, <- (filter_In (is_applied applied)).
    split; apply Permutation_in;
      [apply sort_perm | symmetry; apply sort_perm].
  - intros i Hi. rewrite sort_stable.
    apply GroupingPopoverFacts.filter_filter_implied. intros o.
    unfold has_key, applied_index, is_applied. intros ->%Z.eqb_eq.
    apply negb_true_iff, Z.eqb_neq. lia.
Qed.

Lemma values_applied_in_order_witness :
  exists selected,
    values (mkProps "color" (Some (mkGrouping ∅))
              [mkOption "run.hash" "run" "hash";
               mkOption "run.name" "run" "name";
               mkOption "metric" "metric" "metric"])
           {["color" := ["metric"; "run.hash"]]}
    = Some selected
    /\ StronglySorted (key_le (applied_index ["metric"; "run.hash"])) selected.
Proof.
  destruct (values_applied_in_order
              (mkProps "color" (Some (mkGrouping ∅))
                 [mkOption "run.hash" "run" "hash";
                  mkOption "run.name" "run" "name";
                  mkOption "metric" "metric" "metric"])
              {["color" := ["metric"; "run.hash"]]} (mkGrouping ∅)
              ["metric"; "run.hash"])
    as (selected & Hv & _ & _ & Hs & _).
  - reflexivity.
  - by vm_compute.
  - by exists selected.
Defined.

(** The values of the selected options, for arrays without repetition. *)
Lemma values_map_value (props : IGroupingPopoverProps)
    (fields : gmap string (list string)) (g : IGroupingConfig)
    (applied : list string) :
  groupingData props = Some g ->
  fields !! groupName props = Some applied ->
  List.NoDup applied ->
  List.NoDup (map value (groupingSelectOptions props)) ->
  exists selected,
    values props fields = Some selected /\
    map value selected
    = List.filter (is_option_value (groupingSelectOptions props)) applied.
Proof.
  intros Hg Hf Hnd Hopts. eexists. split; [by apply (values_applied _ _ g)|].
  set (opts := groupingSelectOptions props) in *.
  set (shown := sort _ _).
  assert (Hperm : Permutation shown (List.filter (is_applied applied) opts))
    by apply sort_perm.
  assert (Hmem : forall v,
    In v (map value shown) <-> In v applied /\ In v (map value opts)).
  { intros v. rewrite !in_map_iff. split.
    - intros (o & <- & Ho). apply (Permutation_in _ Hperm) in Ho.
      apply filter_In in Ho as [Ho Ha]. apply is_applied_spec in Ha.
      split; [done|]. by exists o.
    - intros (Hv & o & <- & Ho). exists o. split; [done|].
      apply (Permutation_in _ (Permutation_sym Hperm)).
      apply filter_In. by rewrite is_applied_spec. }
  apply (stdpp.sorting.StronglySorted_unique_strong
           (key_le (array_indexOf applied))).
  - intros x y Hx%list_elem_of_In _ Hxy Hyx. apply Hmem in Hx as [Hx _].
    apply (array_indexOf_inj applied); [done|]. unfold key_le in *. lia.
  - apply StronglySorted_map, sort_sorted.
  - by apply StronglySorted_filter, applied_sorted.
  - apply NoDup_Permutation.
    + apply NoDup_ListNoDup.
      apply (Permutation_NoDup
               (Permutation_map value (Permutation_sym Hperm))).
      clear -Hopts. induction opts as [|o opts IH]; simpl; [constructor|].
      inversion_clear Hopts as [|? ? Ho Hrest].
      destruct (is_applied applied o); simpl; [|by apply IH].
      constructor; [|by apply IH].
      intros (o' & Hv & [Ho' _]%filter_In)%in_map_iff.
      apply Ho. apply in_map_iff. by exists o'.
    + by apply NoDup_ListNoDup, List.NoDup_filter.
    + intros v. rewrite !list_elem_of_In, Hmem, filter_In.
      by rewrite is_option_value_spec.
Qed.

(** X5: When neither the applied fields nor the option values repeat, the values
    shown as selected are, read by their value, the applied fields that are
    option values, in the order of application. *)
Theorem values_follow_application (props : IGroupingPopoverProps)
    (fields : gmap string (list string)) (g : IGroupingConfig)
    (applied : list string) :
  groupingData props = Some g ->
  fields !! groupName props = Some applied ->
  List.NoDup applied ->
  List.NoDup (map value (groupingSelectOptions props)) ->
  exists selected,
    values props fields = Some selected /\
    map value selected
    = List.filter (is_option_value (groupingSelectOptions props)) applied /\
    (Forall (fun field => In field (map value (groupingSelectOptions props)))
            applied ->
     map value selected = applied).
Proof.
  intros Hg Hf Hnd Hopts.
  destruct (values_map_value _ _ _ _ Hg Hf Hnd Hopts) as (selected & Hv & Hm).
  exists selected. split; [done|]. split; [done|].
  intros Hall. rewrite Hm. apply GroupingPopoverMore.filter_all.
  intros v Hin. apply is_option_value_spec.
  rewrite List.Forall_forall in Hall. by apply Hall.
Qed.

Lemma values_follow_application_witness :
  exists selected,
    values (mkProps "color" (Some (mkGrouping ∅))
              [mkOption "run.hash" "run" "hash";
               mkOption "run.name" "run" "name";
               mkOption "metric" "metric" "metric"])
           {["color" := ["metric"; "run.hash"]]}
    = Some selected
    /\ map value selected = ["metric"; "run.hash"].
Proof.
  destruct (values_follow_application
              (mkProps "color" (Some (mkGrouping ∅))
                 [mkOption "run.hash" "run" "hash";
                  mkOption "run.name" "run" "name";
                  mkOption "metric" "metric" "metric"])
              {["color" := ["metric"; "run.hash"]]} (mkGrouping ∅)
              ["metric"; "run.hash"])
    as (selected & Hv & _ & Hall).
  - reflexivity.
  - by vm_compute.
  - repeat constructor; simpl; intros H; repeat destruct H as [H|H];
      discriminate || done.
  - repeat constructor; simpl; intros H; repeat destruct H as [H|H];
      discriminate || done.
  - exists selected. split; [done|]. apply Hall.
    repeat constructor; simpl; tauto.
Defined.

(** X6: Handing the values shown as selected back through [onChange], on an
    event that is no Backspace, reports the applied fields as they are: the
    selection survives the round trip through the Autocomplete. *)
Theorem values_reselect (props : IGroupingPopoverProps)
    (fields : gmap string (list string)) (g : IGroupingConfig)
    (applied : list string) (inputValue : string) (e : jsval) :
  groupingData props = Some g ->
  fields !! groupName props = Some applied ->
  List.NoDup applied ->
  List.NoDup (map value (groupingSelectOptions props)) ->
  Forall (fun field => In field (map value (groupingSelectOptions props)))
         applied ->
  opt_member e "code" <> VStr "Backspace" ->
  exists selected,
    values props fields = Some selected /\
    onChange props inputValue e (map ItemOption selected)
    = ([OnSelect (groupName props) applied], "").
Proof.
  intros Hg Hf Hnd Hopts Hall He.
  destruct (values_map_value _ _ _ _ Hg Hf Hnd Hopts) as (selected & Hv & Hm).
  exists selected. split; [done|].
  unfold onChange, handleSelect.
  destruct (strict_eq_str (opt_member e "code") "Backspace") eqn:E.
  { by apply strict_eq_str_true in E. }
  simpl. rewrite map_map.
  change (map (fun o => item_value (ItemOption o)) selected)
    with (map value selected).
  rewrite Hm.
  rewrite GroupingPopoverMore.filter_all; [done|].
  intros v Hin. apply is_option_value_spec.
  rewrite List.Forall_forall in Hall. by apply Hall.
Qed.

Lemma values_reselect_witness :
  exists selected,
    values (mkProps "color" (Some (mkGrouping ∅))
              [mkOption "run.hash" "run" "hash";
               mkOption "metric" "metric" "metric"])
           {["color" := ["metric"; "run.hash"]]}
    = Some selected
    /\ onChange (mkProps "color" (Some (mkGrouping ∅))
                   [mkOption "run.hash" "run" "hash";
                    mkOption "metric" "metric" "metric"])
                "" VUndefined (map ItemOption selected)
       = ([OnSelect "color" ["metric"; "run.hash"]], "").
Proof.
  apply (values_reselect
           (mkProps "color" (Some (mkGrouping ∅))
              [mkOption "run.hash" "run" "hash";
               mkOption "metric" "metric" "metric"])
           {["color" := ["metric"; "run.hash"]]} (mkGrouping ∅)
           ["metric"; "run.hash"] "" VUndefined).
  - reflexivity.
  - by vm_compute.
  - repeat constructor; simpl; intros H; repeat destruct H as [H|H];
      discriminate || done.
  - repeat constructor; simpl; intros H; repeat destruct H as [H|H];
      discriminate || done.
  - repeat constructor; simpl; tauto.
  - discriminate.
Defined.

(** X7: Computing the values throws exactly when there is a grouping
    configuration without the array of the group and at least one option;
    without any grouping configuration every option counts as selected. *)
Theorem values_throws_iff (props : IGroupingPopoverProps)
    (fields : gmap string (list string)) :
  (values props fields = None <->
   groupingData props <> None /\ fields !! groupName props = None
   /\ groupingSelectOptions props <> []) /\
  (groupingData props = None ->
   values props fields = Some (groupingSelectOptions props)).
Proof.
  unfold values. split; [|by intros ->].
  destruct (groupingData props) as [g|].
  - destruct (fields !! groupName props) as [applied|].
    + split; [done | by intros (_ & ? & _)].
    + destruct (groupingSelectOptions props) as [|o opts].
      * split; [done | by intros (_ & _ & ?)].
      * by split.
  - split; [done | by intros (? & _)].
Qed.

End GroupingValuesFacts.

(** ** TextExplorerAppBar: runs of the controls *)

Module BookmarkRunsFacts.
Import JS TextExplorerAppBar BookmarkRuns.

Lemma run_cons (appId : jsval) (c : Control) (cs : list Control)
    (popover : string) :
  run appId (c :: cs) popover
  = ((fst (handle appId c popover)
      ++ fst (run appId cs (snd (handle appId c popover))))%list,
     snd (run appId cs (snd (handle appId c popover)))).
Proof.
  simpl. destruct (handle appId c popover) as [called popover']. simpl.
  by destruct (run appId cs popover').
Qed.

(** On a route without an appId the update dialog stays closed and no
    bookmark update is requested, whatever is operated. *)
Lemma closed_without_appId (appId : jsval) (cs : list Control)
    (popover : string) :
  truthy appId = false ->
  dialog_open popover = false ->
  operable_run appId cs popover = true ->
  fst (run appId cs popover) = []
  /\ dialog_open (snd (run appId cs popover)) = false.
Proof.
  intros Hid. revert popover.
  induction cs as [|c cs IH]; intros popover Hclosed Hrun; [done|].
  rewrite run_cons. simpl in Hrun.
  apply andb_true_iff in Hrun as [Hc Hrun].
  unfold operable in Hc. apply andb_true_iff in Hc as [Hr Hc].
  destruct c; simpl in *; try congruence;
    try (rewrite Hid in Hr; discriminate);
    by apply IH.
Qed.

(** X8: From the first render on, a route without an appId never leads to
    [onBookmarkUpdate]: the callback is only ever called with a truthy
    appId. *)
Theorem no_update_without_appId (appId : jsval) (cs : list Control) :
  operable_run appId cs initial = true ->
  fst (run appId cs initial) <> [] ->
  truthy appId = true.
Proof.
  intros Hrun Hcalled. destruct (truthy appId) eqn:Hid; [done|].
  exfalso. apply Hcalled.
  by apply (closed_without_appId appId cs initial Hid).
Qed.

Lemma no_update_without_appId_witness :
  truthy (VStr "a1b2c3") = true.
Proof.
  apply (no_update_without_appId (VStr "a1b2c3")
           [MenuUpdateBookmark; DialogSave]).
  - reflexivity.
  - discriminate.
Defined.

Lemma run_called (appId : jsval) (cs : list Control) (popover : string) :
  fst (run appId cs popover) = repeat (OnBookmarkUpdate appId) (saves cs).
Proof.
  revert popover. induction cs as [|c cs IH]; intros popover; [done|].
  rewrite run_cons, IH. by destruct c.
Qed.

(** X9: The callbacks of a run are one [onBookmarkUpdate] with the appId of the
    route for each press of Save, and nothing else; the state it ends in is
    the one its last control sets. *)
Theorem run_callbacks (appId : jsval) (cs : list Control) (popover : string) :
  fst (run appId cs popover) = repeat (OnBookmarkUpdate appId) (saves cs) /\
  (forall c, snd (run appId (cs ++ [c])%list popover)
             = snd (handle appId c initial)).
Proof.
  split; [apply run_called|].
  intros c. revert popover.
  induction cs as [|c' cs IH]; intros popover.
  - simpl. by destruct c.
  - change ((c' :: cs) ++ [c])%list with (c' :: (cs ++ [c]))%list.
    rewrite run_cons. apply IH.
Qed.

(** Each press of Save needs the dialog open, and Save closes it. *)
Lemma saves_bounded (appId : jsval) (cs : list Control) (popover : string) :
  operable_run appId cs popover = true ->
  (saves cs <= update_choices cs + if dialog_open popover then 1 else 0)%nat.
Proof.
  revert popover. induction cs as [|c cs IH]; intros popover Hrun.
  - unfold saves, update_choices. simpl. lia.
  - simpl in Hrun. apply andb_true_iff in Hrun as [Hc Hrun].
    apply IH in Hrun. unfold operable in Hc.
    apply andb_true_iff in Hc as [_ Hc].
    unfold saves, update_choices in *.
    destruct c; simpl in *; try rewrite Hc; lia.
Qed.

(** X10: In a run from the first render a bookmark is updated at most as
    often as Update Bookmark was chosen: no update without that choice. *)
Theorem save_needs_update_choice (appId : jsval) (cs : list Control) :
  operable_run appId cs initial = true ->
  (length (fst (run appId cs initial)) <= update_choices cs)%nat.
Proof.
  intros Hrun. apply saves_bounded in Hrun. simpl in Hrun.
  rewrite run_called, repeat_length. lia.
Qed.

Lemma save_needs_update_choice_witness :
  (length (fst (run (VStr "a1b2c3")
                    [MenuUpdateBookmark; DialogCancel; MenuUpdateBookmark;
                     DialogSave]
                    initial))
   <= 2)%nat.
Proof.
  apply (save_needs_update_choice (VStr "a1b2c3")
           [MenuUpdateBookmark; DialogCancel; MenuUpdateBookmark; DialogSave]).
  reflexivity.
Defined.

End BookmarkRunsFacts.

(** ** RunsContainer *)

Module RunsContainerFacts.
Import JS RunsContainer.

Lemma config_member_None (runsData : jsval) (k f : string) :
  config_member runsData k f = None <->
  nullish (opt_member runsData "config") = false
  /\ nullish (prop (opt_member runsData "config") k) = true.
Proof.
  unfold config_member, member.
  destruct (nullish (opt_member runsData "config")); [by split; [|intros []]|].
  destruct (nullish (prop (opt_member runsData "config") k));
    by split; [|intros []].
Qed.

(** X11: The render throws exactly when the model state has a [config] that
    lacks [pagination] or [table]: the optional chains guard [runsData] and
    [config] but not these two. *)
Theorem render_throws_iff (runsData : jsval) :
  render_props runsData = None <->
  nullish (opt_member runsData "config") = false
  /\ (nullish (prop (opt_member runsData "config") "pagination") = true
      \/ nullish (prop (opt_member runsData "config") "table") = true).
Proof.
  unfold render_props.
  destruct (config_member runsData "pagination" "isLatest") as [latest|] eqn:E1;
    simpl.
  2:{ apply config_member_None in E1. tauto. }
  destruct (config_member runsData "table" "columnsOrder") as [order|] eqn:E2;
    simpl.
  2:{ apply config_member_None in E2. tauto. }
  destruct (config_member runsData "table" "hiddenColumns") as [hidden|] eqn:E3;
    simpl.
  2:{ apply config_member_None in E3. tauto. }
  destruct (config_member runsData "table" "columnsWidths") as [widths|] eqn:E4;
    simpl.
  2:{ apply config_member_None in E4. tauto. }
  split; [done|]. intros [Hc [Hp|Ht]].
  - assert (config_member runsData "pagination" "isLatest" = None)
      by by apply config_member_None.
    congruence.
  - assert (config_member runsData "table" "columnsOrder" = None)
      by by apply config_member_None.
    congruence.
Qed.

(** X12: Whenever the render goes through, the table gets a [hiddenColumns] that
    is not nullish: the array of the model when it has one, and otherwise,
    also before the model has any state, the empty array. *)
Theorem hiddenColumns_never_nullish (runsData : jsval) (props : IRunsProps) :
  render_props runsData = Some props ->
  match hiddenColumns props with
  | Given v =>
      nullish v = false
      /\ v = prop (prop (opt_member runsData "config") "table") "hiddenColumns"
  | EmptyArray =>
      nullish (opt_member runsData "config") = true
      \/ nullish (prop (prop (opt_member runsData "config") "table")
                       "hiddenColumns") = true
  end.
Proof.
  unfold render_props.
  destruct (config_member runsData "pagination" "isLatest"); [|done]. simpl.
  destruct (config_member runsData "table" "columnsOrder"); [|done]. simpl.
  destruct (config_member runsData "table" "hiddenColumns") as [hidden|] eqn:E;
    [|done]. simpl.
  destruct (config_member runsData "table" "columnsWidths"); [|done]. simpl.
  intros [= <-]. simpl. unfold or_empty_array, config_member, member in *.
  destruct (nullish (opt_member runsData "config")) eqn:Hc.
  - injection E as <-. simpl. by left.
  - destruct (nullish (prop (opt_member runsData "config") "table"));
      [done|]. injection E as <-.
    destruct (nullish (prop _ "hiddenColumns")) eqn:Hh; [by right | done].
Qed.

Lemma hiddenColumns_never_nullish_witness :
  hiddenColumns
    {| tableData := VUndefined; tableColumns := VUndefined;
       isRunsDataLoading := VUndefined; isLatest := VUndefined;
       tableRowHeight := VUndefined; columnsOrder := VUndefined;
       hiddenColumns := EmptyArray; query := VUndefined;
       columnsWidths := VUndefined; isInfiniteLoading := VUndefined;
       notifyData := VUndefined |}
  = EmptyArray
  /\ (nullish (opt_member VNull "config") = true
      \/ nullish (prop (prop (opt_member VNull "config") "table")
                       "hiddenColumns") = true).
Proof.
  split; [reflexivity|].
  exact (hiddenColumns_never_nullish VNull _ eq_refl).
Defined.

Example render_before_data :
  render_props VNull
  = Some {| tableData := VUndefined; tableColumns := VUndefined;
            isRunsDataLoading := VUndefined; isLatest := VUndefined;
            tableRowHeight := VUndefined; columnsOrder := VUndefined;
            hiddenColumns := EmptyArray; query := VUndefined;
            columnsWidths := VUndefined; isInfiniteLoading := VUndefined;
            notifyData := VUndefined |}.
Proof. reflexivity. Qed.

Example render_without_table :
  render_props
    (VObj {["config" := VObj {["pagination" :=
                                 VObj {["isLatest" := VBool true]}]}]})
  = None.
Proof. by vm_compute. Qed.

End RunsContainerFacts.

(** ** AskForm: what a submission can do *)

Module AskFormMore.
Import JS AskForm AskFormFacts.

(** X13: The promise of [handleSubmit] rejects exactly when the request is
    rejected or resolves to [undefined] or [null]; the handler then makes
    no state update, so the text of the input stays. *)
Theorem handleSubmit_rejects_iff (onSendEmail : jsval -> Settled)
    (email : string) :
  (snd (handleSubmit onSendEmail email) = false <->
   (exists reason, onSendEmail (request email) = Rejected reason)
   \/ (exists data, onSendEmail (request email) = Fulfilled data
                    /\ nullish data = true)) /\
  (snd (handleSubmit onSendEmail email) = false ->
   fst (handleSubmit onSendEmail email) = []
   /\ forall current,
        apply current (fst (handleSubmit onSendEmail email)) = current).
Proof.
  unfold handleSubmit, member.
  destruct (onSendEmail (request email)) as [data|reason].
  - destruct (nullish data) eqn:Hn.
    + split; [|done]. split; [|done]. intros _. right. by exists data.
    + destruct (truthy (prop data "ok")); simpl.
      * split; [|done]. split; [done|].
        intros [(r & [=]) | (d & [= <-] & Hd)]. congruence.
      * split; [|done]. split; [done|].
        intros [(r & [=]) | (d & [= <-] & Hd)]. congruence.
  - split; [|done]. split; [|done]. intros _. left. by exists reason.
Qed.

(** X14: The input is cleared on a truthy [ok], whatever its type, and on
    nothing else: a result without [ok], or with a falsy one, leaves the
    text. *)
Theorem handleSubmit_clears_iff_truthy (onSendEmail : jsval -> Settled)
    (email : string) (data : jsval) :
  onSendEmail (request email) = Fulfilled data ->
  let updates := fst (handleSubmit onSendEmail email) in
  (updates = [SetEmail ""] <->
   nullish data = false /\ truthy (prop data "ok") = true) /\
  (updates = [] \/ updates = [SetEmail ""]) /\
  (forall fields, data = VObj fields -> fields !! "ok" = None -> updates = []).
Proof.
  intros Hs. cbv zeta. unfold handleSubmit, member. rewrite Hs.
  destruct (nullish data) eqn:Hn; simpl.
  - split; [by split; [|intros []]|]. split; [by left|done].
  - destruct (truthy (prop data "ok")) eqn:Hok; simpl.
    + split; [done|]. split; [by right|].
      intros fields -> Hnone. simpl in Hok. by rewrite Hnone in Hok.
    + split; [by split; [|intros []]|]. split; [by left|done].
Qed.

Lemma handleSubmit_clears_iff_truthy_witness :
  fst (handleSubmit (fun _ => Fulfilled (VObj {["status" := VNum 200]}))
                    "gev@aimstack.io")
  = [].
Proof.
  destruct (handleSubmit_clears_iff_truthy
              (fun _ => Fulfilled (VObj {["status" := VNum 200]}))
              "gev@aimstack.io" (VObj {["status" := VNum 200]}) eq_refl)
    as (_ & _ & H).
  apply (H {["status" := VNum 200]}); [reflexivity | by vm_compute].
Defined.

End AskFormMore.

(** ** exceptionHandler: the edges *)

Module ExceptionHandlerMore.
Import JS Client ExceptionHandler StringFacts ExceptionHandlerFacts.

Lemma append_not_empty (c : ascii) (s t : string) : String c s +:+ t <> "".
Proof. by rewrite append_cons. Qed.

(** X15: A message the handler computes is never empty or otherwise falsy:
    the text of a syntax error starts with a fixed prefix, and a falsy
    message of another error is replaced by the generic one; for an
    exception with properties that is no syntax error there always is a
    message. *)
Theorem message_always_truthy (detail : jsval) (w : World) :
  (forall message w',
     message_of detail w = Returned message w' -> truthy message = true) /\
  (nullish detail = false ->
   prop detail "name" <> VStr "SyntaxError" ->
   exists message,
     message_of detail w = Returned message w /\ truthy message = true).
Proof.
  assert (Hother : truthy (or_else (prop detail "message")
                                   (VStr "Something went wrong")) = true).
  { unfold or_else. by destruct (truthy (prop detail "message")) eqn:E. }
  split.
  - intros message w'.
    destruct (nullish detail) eqn:Hn; [by rewrite message_of_nullish|].
    destruct (strict_eq_str (prop detail "name") "SyntaxError") eqn:E.
    + apply strict_eq_str_true in E. rewrite (message_of_syntax _ _ E).
      destruct (ToString (prop detail "line")),
        (ToString (prop detail "offset")); try done.
      intros [= <- _]. unfold truthy.
      apply negb_true_iff, String.eqb_neq, append_not_empty.
    + rewrite message_of_other; [|done|].
      * by intros [= <- _].
      * intros H%strict_eq_str_true. congruence.
  - intros Hn Hname. eexists. split; [by apply message_of_other|done].
Qed.

Lemma message_always_truthy_witness :
  truthy (VStr "Something went wrong") = true.
Proof.
  apply (proj1 (message_always_truthy (VObj {["message" := VStr ""]})
                  (mkWorld ∅ ∅ 0 []))
               (VStr "Something went wrong") (mkWorld ∅ ∅ 0 [])).
  by vm_compute.
Defined.

(** X16: A syntax error is reported by its position alone: whatever message
    it carries makes no difference to what the handler computes, and a
    position it does not carry is printed as undefined. *)
Theorem syntax_error_position_only (fields : gmap string jsval) (w : World) :
  fields !! "name" = Some (VStr "SyntaxError") ->
  (forall own : jsval,
     message_of (VObj (<["message" := own]> fields)) w
     = message_of (VObj fields) w) /\
  (fields !! "line" = None -> fields !! "offset" = None ->
   message_of (VObj fields) w
   = Returned (VStr "Query syntax error at line (undefined, undefined)") w).
Proof.
  intros Hname.
  assert (Hn : prop (VObj fields) "name" = VStr "SyntaxError")
    by (simpl; by rewrite Hname).
  split.
  - intros own.
    assert (Hn' : prop (VObj (<["message" := own]> fields)) "name"
                  = VStr "SyntaxError")
      by (simpl; by rewrite lookup_insert_ne, Hname).
    rewrite (message_of_syntax _ _ Hn), (message_of_syntax _ _ Hn'). simpl.
    by rewrite !lookup_insert_ne.
  - intros Hl Ho. rewrite (message_of_syntax _ _ Hn). simpl.
    by rewrite Hl, Ho.
Qed.

Lemma syntax_error_position_only_witness :
  message_of (VObj {["name" := VStr "SyntaxError";
                     "message" := VStr "Unexpected token"]})
             (mkWorld ∅ ∅ 0 [])
  = Returned (VStr "Query syntax error at line (undefined, undefined)")
             (mkWorld ∅ ∅ 0 []).
Proof.
  apply (syntax_error_position_only
           {["name" := VStr "SyntaxError";
             "message" := VStr "Unexpected token"]}
           (mkWorld ∅ ∅ 0 [])); by vm_compute.
Defined.

(** X17: An error detail that is a bare string, number or boolean is reported
    with the generic message: its content is not shown. *)
Theorem primitive_detail_generic (detail : jsval) (w : World) :
  nullish detail = false ->
  (forall fields, detail <> VObj fields) ->
  message_of detail w = Returned (VStr "Something went wrong") w.
Proof.
  intros Hn Hprim. rewrite message_of_other; [|done|].
  - destruct detail; try done. by destruct (Hprim o).
  - destruct detail; try done. by destruct (Hprim o).
Qed.

Lemma primitive_detail_generic_witness :
  message_of (VStr "Run not found") (mkWorld ∅ ∅ 0 [])
  = Returned (VStr "Something went wrong") (mkWorld ∅ ∅ 0 []).
Proof.
  apply (primitive_detail_generic (VStr "Run not found")
           (mkWorld ∅ ∅ 0 []));
    [reflexivity | discriminate].
Defined.

Section WithHelpers.
Variable BadRequest : jsval.
Variable notified : INotification -> jsval -> jsval.
Variable reset : jsval -> jsval -> jsval.

(** X18: The handler throws exactly on [undefined] and [null] and on an
    exception named SyntaxError whose line or offset does not convert to a
    string, which is the case of an object with an own property [toString];
    and it throws before it has done anything: no state is set, no
    notification added, no reset requested. *)
Theorem handler_throws_iff (detail : jsval) (model : ModelRef) (w : World) :
  let out := exceptionHandler BadRequest notified reset detail model w in
  (returned out = false <->
   nullish detail = true
   \/ (prop detail "name" = VStr "SyntaxError"
       /\ (ToString (prop detail "line") = None
           \/ ToString (prop detail "offset") = None))) /\
  (forall v, ToString v = None <->
             exists fields own,
               v = VObj fields /\ fields !! "toString" = Some own) /\
  (returned out = false -> out = Thrown w).
Proof.
  cbv zeta. rewrite <- (message_of_throws detail w).
  split; [|split; [apply ToString_None|]].
  - destruct (returned (message_of detail w)) eqn:Hm.
    + apply (exceptionHandler_returns _ model) in Hm as [message Hm].
      rewrite (exceptionHandler_run _ _ _ _ _ _ _ Hm). simpl.
      split; discriminate.
    + by rewrite exceptionHandler_throws.
  - intros Hr. destruct (returned (message_of detail w)) eqn:Hm.
    + apply (exceptionHandler_returns _ model) in Hm as [message Hm].
      by rewrite (exceptionHandler_run _ _ _ _ _ _ _ Hm) in Hr.
    + by rewrite exceptionHandler_throws.
Qed.

End WithHelpers.

End ExceptionHandlerMore.

(** ** onTableResizeModeChange: repeated changes *)

Module TableResizeMore.
Import JS Client TableResize TableResizeFacts.

Section WithEncoder.
Variable encode : gmap string jsval -> string.

(** The world a call leaves when [config.table] is an object, whether it
    returns or throws at the label. *)
Lemma table_world (params : IOnTableResizeModeChangeParams) (w : World)
    (state config t : gmap string jsval) :
  state_of w (model params) = VObj state ->
  state !! "config" = Some (VObj config) ->
  config !! "table" = Some (VObj t) ->
  models (world_of (onTableResizeModeChange encode params w))
  = <[model params :=
        VObj (<["config" :=
                  VObj (<["table" := VObj (<["resizeMode" := mode params]> t)]>
                          config)]> state)]> (models w) /\
  localStorage (world_of (onTableResizeModeChange encode params w))
  = <[storage_key params := encode (<["resizeMode" := mode params]> t)]>
      (localStorage w) /\
  calls (world_of (onTableResizeModeChange encode params w))
  = match label_of params with
    | Some label => (calls w ++ [TrackEvent label])%list
    | None => calls w
    end.
Proof.
  intros Hs Hc Ht. rewrite (onTableResizeModeChange_table _ _ _ _ _ _ Hs Hc Ht).
  by destruct (label_of params).
Qed.

(** X19: Two mode changes for one page and model leave the models and local
    storage as the second one alone would: the last mode wins and nothing of
    the first remains; when both modes convert to strings both changes are
    tracked, in order.  A repeated change, in particular, alters nothing but
    the analytics log. *)
Theorem last_mode_wins (model : ModelRef) (page : string)
    (first second : jsval) (w : World) (t : gmap string jsval) :
  table_of w model = VObj t ->
  let change mode :=
    onTableResizeModeChange encode (mkParams model mode page) in
  let once := world_of (change second w) in
  let twice := world_of (change second (world_of (change first w))) in
  models twice = models once /\
  localStorage twice = localStorage once /\
  (forall first_text second_text,
     ToString first = Some first_text ->
     ToString second = Some second_text ->
     calls twice
     = (calls w ++ [TrackEvent (label_text page first_text);
                    TrackEvent (label_text page second_text)])%list).
Proof.
  intros (state & config & Hs & Hc & Ht)%table_of_obj. cbv beta zeta.
  destruct (table_world (mkParams model second page) w state config t
              Hs Hc Ht) as (Hm2 & Hl2 & _).
  destruct (table_world (mkParams model first page) w state config t
              Hs Hc Ht) as (Hm1 & Hl1 & Hc1).
  set (w1 := world_of
               (onTableResizeModeChange encode (mkParams model first page) w))
    in *.
  cbn [TableResize.model TableResize.mode TableResize.page] in *.
  set (t1 := <["resizeMode" := first]> t) in *.
  set (config1 := <["table" := VObj t1]> config) in *.
  set (state1 := <["config" := VObj config1]> state) in *.
  destruct (table_world (mkParams model second page) w1 state1 config1 t1)
    as (Hm & Hl & Hcalls).
  { unfold state_of. cbn [TableResize.model]. rewrite Hm1.
    by rewrite lookup_insert_eq. }
  { apply lookup_insert_eq. }
  { apply lookup_insert_eq. }
  cbn [TableResize.model TableResize.mode TableResize.page] in *.
  split; [|split].
  - rewrite Hm, Hm1, Hm2. subst state1 config1 t1.
    by rewrite !insert_insert_eq.
  - rewrite Hl, Hl1, Hl2. subst t1. unfold storage_key.
    cbn [TableResize.page]. by rewrite !insert_insert_eq.
  - intros first_text second_text Hf Hsnd.
    rewrite Hcalls, Hc1. unfold label_of.
    cbn [TableResize.mode TableResize.page]. rewrite Hf, Hsnd.
    cbn [fmap option_fmap option_map]. by rewrite <- app_assoc.
Qed.

End WithEncoder.

Lemma last_mode_wins_witness :
  localStorage
    (world_of
       (onTableResizeModeChange
          (fun t => default "" (ToString (prop (VObj t) "resizeMode")))
          (mkParams 7%nat (VStr "Resizable") "runs")
          (world_of
             (onTableResizeModeChange
                (fun t => default "" (ToString (prop (VObj t) "resizeMode")))
                (mkParams 7%nat (VStr "Hide") "runs")
                (mkWorld
                   {[ 7%nat :=
                        VObj {["config" := VObj {["table" := VObj ∅]}]} ]}
                   ∅ 0 [])))))
  !! "runsTable"
  = Some "Resizable".
Proof.
  pose proof (last_mode_wins
                (fun t => default "" (ToString (prop (VObj t) "resizeMode")))
                7%nat "runs" (VStr "Hide") (VStr "Resizable")
                (mkWorld
                   {[ 7%nat :=
                        VObj {["config" := VObj {["table" := VObj ∅]}]} ]}
                   ∅ 0 [])
                ∅) as H.
  cbv beta zeta in H. destruct H as (_ & H & _); [by vm_compute|].
  etransitivity; [exact (f_equal (fun m => m !! "runsTable") H)|].
  by vm_compute.
Defined.

End TableResizeMore.
